(** * sshp: parallel ssh with streaming output

    A shallow embedding of [sshp.js].  The script is a single event-driven
    program: it parses its options, validates them, builds one job per host,
    hands the jobs to a bounded queue and reacts to the events of the child
    processes.  The embedding keeps the script's global variables in a record
    and turns every callback into a function from state to state that also
    returns what was written to the terminal.  The libraries and the runtime
    the script calls ([async.queue], [child_process], [Object.keys],
    [process.exit]) appear with the behaviour the script relies on.  The
    counters of the script are integers; the numbers it reads from the
    command line are JavaScript numbers. *)

From Stdlib Require Import String Ascii List ZArith NArith QArith Bool Lia.
From Stdlib Require Import Permutation.
Import ListNotations.

Local Open Scope string_scope.
Local Open Scope list_scope.
Local Open Scope Z_scope.

#[local] Set Warnings "-register-all".

(** ** Numbers

    [+option.optarg] is a JavaScript number: a finite value, an infinity or
    NaN.  Every finite double is a rational, and a finite number is any
    rational here. *)

Inductive number : Type :=
| Finite (q : Q)
| Infinity (negative : bool)
| NaN.

(** An integer as a number. *)
Definition int (z : Z) : number := Finite (inject_Z z).

(** [w < m] for an integer [w]: [w < n/d] is [w * d < n], and a comparison
    with NaN is false. *)
Definition below (w : Z) (m : number) : bool :=
  match m with
  | Finite q => w * Zpos (Qden q) <? Qnum q
  | Infinity negative => negb negative
  | NaN => false
  end.

(** The truthiness of a number, as in [if (port)]: all but 0 and NaN. *)
Definition truthy (m : number) : bool :=
  match m with
  | Finite q => negb (Qnum q =? 0)
  | Infinity _ => true
  | NaN => false
  end.

(** ** Terminal output

    What the script prints is kept symbolic: the library calls that build a
    piece of text ([util.format], [util.inspect], the getters of [colors],
    [ll.chomp], the clock) are constructors, so that two writes are equal
    exactly when the script made the same calls with the same arguments. *)

Inductive color : Type := cyan | magenta | green | red | grey | yellow.

(** An element of an argument vector: [sshcommand] holds strings and, after
    [-p], the port as a number. *)
Inductive value : Type :=
| VStr (s : string)
| VNum (n : number).

Inductive text : Type :=
| Str (s : string)
| Paint (c : color) (t : text)
| Num (n : Z)
| Number (x : number)
| Null
| Format (fmt : text) (args : list text)
| Inspect (arr : list value)
| Chomp (t : text)
| Clock
| Pid
| Usage
| Version.

Inductive effect : Type :=
| console_log (fmt : text) (args : list text)
| console_error (fmt : text) (args : list text)
| stdout_write (t : text)
| stderr_write (t : text)
| spawn (file : value) (args : list value).

Definition nl : string := String "010"%char EmptyString.
Definition cr : string := String "013"%char EmptyString.

(** ** JavaScript objects used as maps

    [output] and [diff] are plain objects indexed by strings.  Own properties
    are kept in insertion order; [Object.keys] lists the keys that are array
    indices first, in ascending numeric order, and then the other keys in
    insertion order.  A lookup that finds no own property falls through to
    [Object.prototype]. *)

Module JsObject.

Definition is_digit (c : ascii) : bool :=
  ((48 <=? N_of_ascii c) && (N_of_ascii c <=? 57))%N.

Fixpoint digits (s : string) (acc : N) : option N :=
  match s with
  | EmptyString => Some acc
  | String c r =>
      if is_digit c then digits r (10 * acc + (N_of_ascii c - 48))%N else None
  end.

(** The canonical decimal strings of the integers from 0 to 2^32 - 2. *)
Definition array_index (k : string) : option N :=
  match k with
  | EmptyString => None
  | String c r =>
      if Ascii.eqb c "0"%char then
        match r with EmptyString => Some 0%N | _ => None end
      else
        match digits k 0%N with
        | Some n => if (n <? 4294967295)%N then Some n else None
        | None => None
        end
  end.

Definition is_index (k : string) : bool :=
  match array_index k with Some _ => true | None => false end.

(** The properties every object inherits from [Object.prototype]. *)
Definition prototype_names : list string :=
  [ "constructor"; "toString"; "toLocaleString"; "valueOf"; "hasOwnProperty";
    "isPrototypeOf"; "propertyIsEnumerable"; "__defineGetter__";
    "__defineSetter__"; "__lookupGetter__"; "__lookupSetter__"; "__proto__" ].

Definition inherited (k : string) : bool :=
  existsb (String.eqb k) prototype_names.

Section Properties.
Context {V : Type}.

Definition t : Type := list (string * V).

Definition empty : t := [].

Fixpoint own (o : t) (k : string) : option V :=
  match o with
  | [] => None
  | (k', v) :: r => if String.eqb k' k then Some v else own r k
  end.

(** Writing an own property: an existing key keeps its place. *)
Fixpoint put (o : t) (k : string) (v : V) : t :=
  match o with
  | [] => [(k, v)]
  | (k', v') :: r =>
      if String.eqb k' k then (k', v) :: r else (k', v') :: put r k v
  end.

Fixpoint insert_index (n : N) (k : string) (l : list (N * string))
  : list (N * string) :=
  match l with
  | [] => [(n, k)]
  | (m, k') :: r =>
      if (n <=? m)%N then (n, k) :: l else (m, k') :: insert_index n k r
  end.

Definition index_keys (ks : list string) : list (N * string) :=
  fold_right
    (fun k acc =>
       match array_index k with
       | Some n => insert_index n k acc
       | None => acc
       end) [] ks.

Definition named_keys (ks : list string) : list string :=
  filter (fun k => negb (is_index k)) ks.

(** The order in which [Object.keys] lists keys that were written in the
    order [ks]: the array indices first, by value, then the others as they
    were written. *)
Definition order (ks : list string) : list string :=
  map snd (index_keys ks) ++ named_keys ks.

Definition keys (o : t) : list string := order (map fst o).
End Properties.

Arguments t : clear implicits.

End JsObject.

(** ** Options *)

Record config : Type := Config {
  debug : bool;
  dryrun : bool;
  errorcodes : bool;
  file : option string;
  group : bool;
  identity : option string;
  join : bool;
  login : option string;
  maxjobs : number;
  nostrict : bool;
  port : option number;
  quiet : bool;
  silent : bool;
  command : list string
}.

(** The values the script gives its variables before the option loop;
    [command] is the rest of the command line after the options. *)
Definition defaults (operands : list string) : config :=
  {| debug := false; dryrun := false; errorcodes := false; file := None;
     group := false; identity := None; join := false; login := None;
     maxjobs := int 30; nostrict := false; port := None; quiet := false;
     silent := false; command := operands |}.

(** One result of [parser.getopt()].  The arguments of [-m] and [-p] are
    the numbers [+option.optarg] yields. *)
Inductive opt : Type :=
| Od | Oe | Of (optarg : string) | Og | Oh | Oi (optarg : string) | Oj
| Ol (optarg : string) | Om (optarg : number) | On | ON
| Op (optarg : number)
| Oq | Os | Ou | Ov | Oother.

Inductive parsed : Type :=
| Options (c : config)
| Quit (code : Z) (out : list effect)
| CheckUpdate.

Definition set_debug (c : config) : config :=
  Config true (dryrun c) (errorcodes c) (file c) (group c) (identity c)
    (join c) (login c) (maxjobs c) (nostrict c) (port c) (quiet c) (silent c)
    (command c).
Definition set_dryrun (c : config) : config :=
  Config (debug c) true (errorcodes c) (file c) (group c) (identity c)
    (join c) (login c) (maxjobs c) (nostrict c) (port c) (quiet c) (silent c)
    (command c).
Definition set_errorcodes (c : config) : config :=
  Config (debug c) (dryrun c) true (file c) (group c) (identity c)
    (join c) (login c) (maxjobs c) (nostrict c) (port c) (quiet c) (silent c)
    (command c).
Definition set_file (a : string) (c : config) : config :=
  Config (debug c) (dryrun c) (errorcodes c) (Some a) (group c) (identity c)
    (join c) (login c) (maxjobs c) (nostrict c) (port c) (quiet c) (silent c)
    (command c).
Definition set_group (c : config) : config :=
  Config (debug c) (dryrun c) (errorcodes c) (file c) true (identity c)
    (join c) (login c) (maxjobs c) (nostrict c) (port c) (quiet c) (silent c)
    (command c).
Definition set_identity (a : string) (c : config) : config :=
  Config (debug c) (dryrun c) (errorcodes c) (file c) (group c) (Some a)
    (join c) (login c) (maxjobs c) (nostrict c) (port c) (quiet c) (silent c)
    (command c).
Definition set_join (c : config) : config :=
  Config (debug c) (dryrun c) (errorcodes c) (file c) (group c) (identity c)
    true (login c) (maxjobs c) (nostrict c) (port c) (quiet c) (silent c)
    (command c).
Definition set_login (a : string) (c : config) : config :=
  Config (debug c) (dryrun c) (errorcodes c) (file c) (group c) (identity c)
    (join c) (Some a) (maxjobs c) (nostrict c) (port c) (quiet c) (silent c)
    (command c).
Definition set_maxjobs (m : number) (c : config) : config :=
  Config (debug c) (dryrun c) (errorcodes c) (file c) (group c) (identity c)
    (join c) (login c) m (nostrict c) (port c) (quiet c) (silent c)
    (command c).
Definition set_nostrict (c : config) : config :=
  Config (debug c) (dryrun c) (errorcodes c) (file c) (group c) (identity c)
    (join c) (login c) (maxjobs c) true (port c) (quiet c) (silent c)
    (command c).
Definition set_port (p : number) (c : config) : config :=
  Config (debug c) (dryrun c) (errorcodes c) (file c) (group c) (identity c)
    (join c) (login c) (maxjobs c) (nostrict c) (Some p) (quiet c) (silent c)
    (command c).
Definition set_quiet (c : config) : config :=
  Config (debug c) (dryrun c) (errorcodes c) (file c) (group c) (identity c)
    (join c) (login c) (maxjobs c) (nostrict c) (port c) true (silent c)
    (command c).
Definition set_silent (c : config) : config :=
  Config (debug c) (dryrun c) (errorcodes c) (file c) (group c) (identity c)
    (join c) (login c) (maxjobs c) (nostrict c) (port c) (quiet c) true
    (command c).

(** The [while]/[switch] over the options. *)
Fixpoint getopt_loop (c : config) (opts : list opt) : parsed :=
  match opts with
  | [] => Options c
  | o :: rest =>
      match o with
      | Od => getopt_loop (set_debug c) rest
      | Oe => getopt_loop (set_errorcodes c) rest
      | Of a => getopt_loop (set_file a c) rest
      | Og => getopt_loop (set_group c) rest
      | Oh => Quit 0 [console_log Usage []]
      | Oi a => getopt_loop (set_identity a c) rest
      | Oj => getopt_loop (set_join c) rest
      | Ol a => getopt_loop (set_login a c) rest
      | Om n => getopt_loop (set_maxjobs n c) rest
      | On => getopt_loop (set_debug (set_dryrun c)) rest
      | ON => getopt_loop (set_nostrict c) rest
      | Op n => getopt_loop (set_port n c) rest
      | Oq => getopt_loop (set_quiet c) rest
      | Os => getopt_loop (set_silent c) rest
      | Ou => CheckUpdate
      | Ov => Quit 0 [console_log Version []]
      | Oother => Quit 1 [console_error Usage []]
      end
  end.

Definition parse (opts : list opt) (operands : list string) : parsed :=
  getopt_loop (defaults operands) opts.

(** The checks that follow the option loop: [Some msg] is the message
    written before [process.exit(1)], [None] lets the script go on. *)
Definition validate (c : config) : option string :=
  match command c with
  | [] => Some "no command specified"
  | _ :: _ =>
      if group c && join c then
        Some "option `-g` and `-j` are mutually exclusive"
      else if join c && silent c then
        Some "option `-j` and `-s` are mutually exclusive"
      else None
  end.

(** ** The script after the options

    Everything below depends on the options and on the list of hosts, which
    are fixed once the script has read them. *)

Inductive stream : Type := Stdout | Stderr.

(** The global variables of the script together with the private state of
    the queue and the child processes that are alive.  A child is named by
    the rank of its [spawn] call.

    The queue is [async.queue] as the script uses it (the 0.2 series of the
    library): [q.push] appends the task to [q.tasks] and schedules one call
    of [q.process]; [q.process] starts the worker on the first task when
    [workers < concurrency] and a task is pending; the callback given to
    the worker lowers [workers], calls [q.drain] when no task is pending or
    running, and calls [q.process] again. *)
Record state : Type := State {
  tasks : list string;
  workers : Z;
  ticks : nat;
  running : list (nat * string);
  spawned : nat;
  i : Z;
  exitcode : Z;
  lasthost : option string;
  output : JsObject.t string
}.

(** What the event loop does next: go on, leave through
    [process.exit(code)], or die on an exception nobody catches. *)
Inductive outcome : Type :=
| Continue (s : state)
| Exited (code : Z) (s : state)
| Crashed.

Inductive start : Type :=
| Rejected (code : Z)
| Started (s : state).

(** What the runtime delivers to the script: a scheduled [q.process], a
    chunk (or, in line mode, a line) of a child's stdout or stderr, the
    ['close'] of a child with its exit code ([None] is the [null] that a
    child ended by a signal reports in place of a code), the ['error'] that
    a child emits when it could not be spawned, and SIGUSR1 with whatever
    first argument the handler gets. *)
Inductive event : Type :=
| Tick
| Data (pid : nat) (k : stream) (d : string)
| Close (pid : nat) (code : option N)
| Error (pid : nat)
| Sigusr1 (arg : bool).

(** [output[host] = v]: a string assigned to [__proto__] is dropped. *)
Definition assign (o : JsObject.t string) (k v : string) : JsObject.t string :=
  if String.eqb k "__proto__" then o else JsObject.put o k v.

(** [output[host] = output[host] || ''; output[host] += d] *)
Definition accumulate (o : JsObject.t string) (host d : string)
  : JsObject.t string :=
  match JsObject.own o host with
  | Some t => assign o host (String.append t d)
  | None => assign o host d
  end.

(** [output[host]] for a host listed by [Object.keys(output)]. *)
Definition text_of (o : JsObject.t string) (host : string) : string :=
  match JsObject.own o host with Some t => t | None => "undefined" end.

(** The loop of [q.drain] that fills [diff]: [None] when [diff[text]] finds
    an inherited property, which has no [push], so that the call throws. *)
Definition group_step (o : JsObject.t string)
    (acc : option (JsObject.t (list string))) (host : string)
  : option (JsObject.t (list string)) :=
  match acc with
  | None => None
  | Some diff =>
      let t := text_of o host in
      match JsObject.own diff t with
      | Some hs => Some (JsObject.put diff t (hs ++ [host]))
      | None =>
          if JsObject.inherited t then None
          else Some (JsObject.put diff t [host])
      end
  end.

Definition group_by_output (o : JsObject.t string)
  : option (JsObject.t (list string)) :=
  fold_left (group_step o) (JsObject.keys o) (Some JsObject.empty).

Definition len {A : Type} (l : list A) : Z := Z.of_nat (length l).

Fixpoint remove_child (pid : nat) (l : list (nat * string))
  : list (nat * string) :=
  match l with
  | [] => []
  | (p, h) :: r => if Nat.eqb p pid then r else (p, h) :: remove_child pid r
  end.

Fixpoint child (pid : nat) (l : list (nat * string)) : option string :=
  match l with
  | [] => None
  | (p, h) :: r => if Nat.eqb p pid then Some h else child pid r
  end.

(** [console.log('[%s] ', host.cyan)], the header of group mode. *)
Definition header (host : string) : effect :=
  console_log (Str "[%s] ") [Paint cyan (Str host)].

(** [process.stdout.write(d.green)] and [process.stderr.write(d.red)] *)
Definition chunk (k : stream) (d : string) : effect :=
  match k with
  | Stdout => stdout_write (Paint green (Str d))
  | Stderr => stderr_write (Paint red (Str d))
  end.

Section Script.
Variable c : config.
Variable hosts : list string.

(** The number of calls of [q.process] that the call stack of the runtime
    holds on top of the one the event loop makes. *)
Variable stack : nat.

(** [vlog]: a debug line, printed only with [-d]. *)
Definition vlog (fmt : string) (args : list text) : list effect :=
  if debug c then
    [console_log (Str "[%s] %s")
       [Paint cyan (Str "sshp"); Format (Str fmt) args]]
  else [].

(** [progress(cr)] *)
Definition progress (s : state) (arg : bool) : effect :=
  stdout_write
    (Format (Str "[%s] finished %s/%s%s")
       [Paint cyan (Str "sshp"); Paint magenta (Num (i s));
        Paint magenta (Num (len hosts)); Str (if arg then cr else nl)]).

Definition sshcommand : list value :=
  [VStr "ssh"]
  ++ (if quiet c then [VStr "-q"] else [])
  ++ match port c with
     | Some p => if truthy p then [VStr "-p"; VNum p] else []
     | None => []
     end
  ++ match login c with
     | Some l => if String.eqb l "" then [] else [VStr "-l"; VStr l]
     | None => []
     end
  ++ (if nostrict c then [VStr "-o"; VStr "StrictHostKeyChecking=no"]
      else []).

(** [sshcommand.concat(host, command)] *)
Definition cmd (host : string) : list value :=
  sshcommand ++ VStr host :: map VStr (command c).

(** [output] after [hosts.forEach]. *)
Definition init_output : JsObject.t string :=
  fold_left (fun o host => assign o host "") hosts JsObject.empty.

(** The variables when the top level of the script has run: every host
    has been pushed, one [q.process] call is scheduled per push, and no
    worker has started yet. *)
Definition init : state :=
  {| tasks := hosts; workers := 0; ticks := length hosts; running := [];
     spawned := 0%nat; i := 0; exitcode := 0; lasthost := None;
     output := init_output |}.

(** The top level of the script from the validation to its last line. *)
Definition boot : start * list effect :=
  match validate c with
  | Some msg => (Rejected 1, [console_error (Str msg) []])
  | None =>
      (Started init,
       vlog "starting: %s" [Clock]
       ++ vlog "pid: %s" [Paint magenta Pid]
       ++ vlog "hosts (%s): %s"
            [Paint magenta (Num (len hosts)); Inspect (map VStr hosts)]
       ++ vlog "command: %s" [Inspect (map VStr (command c))]
       ++ vlog "maxjobs: %s" [Paint green (Number (maxjobs c))]
       ++ (if join c then [progress init true] else []))
  end.

(** The two [console.log] calls of [q.drain] for one key of [diff]. *)
Definition print_group (diff : JsObject.t (list string)) (nkeys : Z)
    (t : string) : list effect :=
  let hs := match JsObject.own diff t with Some hs => hs | None => [] end in
  [console_log (Paint grey (Str "hosts (%d/%d): %s"))
     [Num (len hs); Num nkeys; Paint cyan (Str (String.concat " " hs))];
   console_log
     (if String.eqb t "" then Paint grey (Str ("no output" ++ nl))
      else Str t) []].

Definition summary (diff : JsObject.t (list string)) (nkeys : Z)
  : list effect :=
  let ks := JsObject.keys diff in
  console_log (Str (nl ++ nl ++ "finished with %s unique result%s" ++ nl))
    [Paint magenta (Num (len ks));
     Str (if len ks =? 1 then "" else "s")]
  :: flat_map (print_group diff nkeys) ks.

(** [q.drain] *)
Definition drain (s : state) : outcome * list effect :=
  let finished :=
    vlog "finished: %s (%s ms)" [Clock; Paint magenta Clock] in
  if join c && negb (group c) then
    match group_by_output (output s) with
    | None => (Crashed, [])
    | Some diff =>
        (Exited (exitcode s) s,
         summary diff (len (JsObject.keys (output s))) ++ finished)
    end
  else (Exited (exitcode s) s, finished).

Definition after (out : list effect) (r : outcome * list effect)
  : outcome * list effect :=
  (fst r, out ++ snd r).

(** [q.process] of the queue with [processhost] as its worker; [ts] is
    [q.tasks].  A dry run returns [cb()] from [processhost] at once, so the
    queue's callback ([workers -= 1], the test for [q.drain], [q.process]
    again) runs inside the same call, and the calls of [q.process] nest, one
    inside the other for each host: [room] is the number of further calls
    the stack holds, and the call it has no room for dies of a [RangeError]
    that nothing catches.  Outside a dry run the child is spawned and the
    callback waits for its ['close']. *)
Fixpoint q_process (room : nat) (ts : list string) (s : state) {struct ts}
  : outcome * list effect :=
  match ts with
  | [] => (Continue s, [])
  | host :: rest =>
      if below (workers s) (maxjobs c) then
        let log := vlog "[%s] %s" [Paint yellow (Str host);
                                   Inspect (cmd host)] in
        if dryrun c then
          let s' := State rest (workers s + 1 - 1) (ticks s) (running s)
                      (spawned s) (i s) (exitcode s) (lasthost s)
                      (output s) in
          if len rest + workers s' =? 0 then after log (drain s')
          else
            match room with
            | O => after log (Crashed, [])
            | S room' => after log (q_process room' rest s')
            end
        else
          (Continue
             (State rest (workers s + 1) (ticks s)
                (running s ++ [(spawned s, host)]) (S (spawned s))
                (i s) (exitcode s) (lasthost s) (output s)),
           log ++ [spawn (hd (VStr "ssh") (cmd host)) (tl (cmd host))])
      else (Continue s, [])
  end.

(** The callback [cb] that the queue hands to [processhost], as the
    ['close'] handler calls it. *)
Definition next (s : state) : outcome * list effect :=
  let s' := State (tasks s) (workers s - 1) (ticks s) (running s)
              (spawned s) (i s) (exitcode s) (lasthost s) (output s) in
  if len (tasks s') + workers s' =? 0 then drain s'
  else q_process stack (tasks s') s'.

(** [out] and [err]: they differ in the channel and in the colour. *)
Definition on_data (s : state) (host : string) (k : stream) (d : string)
  : state * list effect :=
  if silent c then (s, [])
  else if group c then
    let differs :=
      match lasthost s with
      | Some h => negb (String.eqb host h)
      | None => true
      end in
    (State (tasks s) (workers s) (ticks s) (running s) (spawned s) (i s)
       (exitcode s) (if differs then Some host else lasthost s) (output s),
     (if differs then [header host] else []) ++ [chunk k d])
  else if join c then
    (State (tasks s) (workers s) (ticks s) (running s) (spawned s) (i s)
       (exitcode s) (lasthost s) (accumulate (output s) host d), [])
  else
    (s,
     [match k with
      | Stdout =>
          console_log (Str "[%s] %s")
            [Paint cyan (Str host); Paint green (Chomp (Str d))]
      | Stderr =>
          console_error (Str "[%s] %s")
            [Paint cyan (Str host); Paint red (Chomp (Str d))]
      end]).

(** The number [exitcode += code] adds: [null] converts to 0. *)
Definition to_number (code : option N) : Z :=
  match code with Some n => Z.of_N n | None => 0 end.

(** What the ['close'] handler prints, after [++i]. *)
Definition exit_report (s : state) (host : string) (code : option N)
  : list effect :=
  if errorcodes c then
    [console_log (Str "[%s] exited: %s (%s ms)")
       [Paint cyan (Str host);
        match code with
        | Some 0%N => Paint green (Num 0)
        | Some n => Paint red (Num (Z.of_N n))
        | None => Paint red Null
        end;
        Paint magenta Clock]]
  else if join c then [progress s true]
  else [].

(** The ['close'] handler of a child. *)
Definition on_close (s : state) (pid : nat) (host : string)
    (code : option N) : outcome * list effect :=
  let s' := State (tasks s) (workers s) (ticks s)
              (remove_child pid (running s)) (spawned s) (i s + 1)
              (exitcode s + to_number code) (lasthost s) (output s) in
  after (exit_report s' host code) (next s').

(** One turn of the event loop; [None] when the event cannot occur: no
    [q.process] is scheduled, or the child is not alive.  The script
    listens to the ['data'] (or ['line']) events of the two streams and to
    ['close']; it registers no listener for ['error'], and an ['error']
    without a listener is thrown. *)
Definition step (s : state) (ev : event) : option (outcome * list effect) :=
  match ev with
  | Tick =>
      match ticks s with
      | O => None
      | S n =>
          Some (q_process stack (tasks s)
                  (State (tasks s) (workers s) n (running s) (spawned s)
                     (i s) (exitcode s) (lasthost s) (output s)))
      end
  | Data pid k d =>
      match child pid (running s) with
      | Some host =>
          let (s', out) := on_data s host k d in Some (Continue s', out)
      | None => None
      end
  | Close pid code =>
      match child pid (running s) with
      | Some host => Some (on_close s pid host code)
      | None => None
      end
  | Error pid =>
      match child pid (running s) with
      | Some _ => Some (Crashed, [])
      | None => None
      end
  | Sigusr1 arg => Some (Continue s, [progress s arg])
  end.

(** A run: the events the loop handles, in order.  Nothing happens after
    the process has ended. *)
Fixpoint run (s : state) (evs : list event)
  : option (outcome * list effect) :=
  match evs with
  | [] => Some (Continue s, [])
  | ev :: rest =>
      match step s ev with
      | None => None
      | Some (Continue s', out) =>
          match run s' rest with
          | Some r => Some (after out r)
          | None => None
          end
      | Some (o, out) =>
          match rest with
          | [] => Some (o, out)
          | _ :: _ => None
          end
      end
  end.

(** The states a run can be in. *)
Inductive reachable : state -> Prop :=
| reach_init : reachable init
| reach_step s ev s' out :
    reachable s -> step s ev = Some (Continue s', out) -> reachable s'.
End Script.

(** ** Notions used by the statements *)



(** The debug line [processhost] prints for a host. *)
Definition invocation (c : config) (host : string) : effect :=
  console_log (Str "[%s] %s")
    [Paint cyan (Str "sshp");
     Format (Str "[%s] %s") [Paint yellow (Str host); Inspect (cmd c host)]].

(** The hosts of [output] with their accumulated text, in the order of
    [Object.keys(output)]. *)
Definition accumulated (o : JsObject.t string) : list (string * string) :=
  map (fun host => (host, text_of o host)) (JsObject.keys o).

(** The distinct elements of a list, each at its first occurrence. *)
Fixpoint distinct (l : list string) : list string :=
  match l with
  | [] => []
  | x :: r => x :: filter (fun y => negb (String.eqb y x)) (distinct r)
  end.

(** The partition of hosts by identical text: one group per distinct text,
    in the order in which the texts are first met, each with its hosts. *)
Definition partition_by_text (l : list (string * string))
  : list (string * list string) :=
  map (fun t => (t, map fst (filter (fun p => String.eqb (snd p) t) l)))
    (distinct (map snd l)).

(** What the summary prints for one group. *)
Definition group_lines (nkeys : Z) (g : string * list string) : list effect :=
  [console_log (Paint grey (Str "hosts (%d/%d): %s"))
     [Num (len (snd g)); Num nkeys;
      Paint cyan (Str (String.concat " " (snd g)))];
   console_log
     (if String.eqb (fst g) "" then Paint grey (Str ("no output" ++ nl))
      else Str (fst g)) []].

(** Configurations and states of the examples. *)
Definition uname : config := defaults ["uname"].
Definition uname_group_silent : config := set_silent (set_group uname).
Definition uname_join : config := set_join uname.
Definition uname_dry : config := set_debug (set_dryrun uname).
Definition uname_one_at_a_time : config := set_maxjobs (int 1) uname.

(** Room on the stack that no example uses up. *)
Definition plenty : nat := 1000.
Definition uname_group : config := set_group uname.

(** The shape of a group-mode header among the lines the script prints. *)
Definition is_header (e : effect) : bool :=
  match e with
  | console_log fmt [a] =>
      match fmt, a with
      | Str _, Paint cyan (Str _) => true
      | _, _ => false
      end
  | _ => false
  end.

Definition is_spawn (e : effect) : bool :=
  match e with spawn _ _ => true | _ => false end.

Definition is_error (e : effect) : bool :=
  match e with console_error _ _ => true | _ => false end.

(** The raw writes of group mode. *)
Definition is_chunk (e : effect) : bool :=
  match e with
  | stdout_write (Paint _ _) | stderr_write _ => true
  | _ => false
  end.

(** A list of effects with none of a given class. *)
Definition free_of (f : effect -> bool) (l : list effect) : Prop :=
  forallb (fun e => negb (f e)) l = true.

(** What a ['close'] adds to [exitcode]. *)
Definition contribution (ev : event) : Z :=
  match ev with Close _ code => to_number code | _ => 0 end.

(** The exit code an outcome carries. *)
Definition final_exitcode (o : outcome) : option Z :=
  match o with
  | Continue s => Some (exitcode s)
  | Exited code _ => Some code
  | Crashed => None
  end.

(** The state an outcome carries. *)
Definition final_state (o : outcome) : option state :=
  match o with
  | Continue s => Some s
  | Exited _ s => Some s
  | Crashed => None
  end.

(** What an event adds to the count of finished jobs. *)
Definition counted (ev : event) : Z :=
  match ev with Close _ _ => 1 | _ => 0 end.

(** The loop has stopped. *)
Definition ended (o : outcome) : bool :=
  match o with Continue _ => false | _ => true end.

(** What holds of the state between two events: the queue's counter is the
    number of live children, the last of which found the others below the
    cap; a dry run never has a child, never counts, never accumulates and
    keeps every host pending; otherwise every host is pending, running or
    counted as finished, and as long as the loop goes on some host is
    pending or running. *)
Definition inv (c : config) (hosts : list string) (s : state) : Prop :=
  workers s = len (running s)
  /\ (0 < workers s -> below (workers s - 1) (maxjobs c) = true)
  /\ 0 <= i s
  /\ if dryrun c then
       i s = 0 /\ running s = [] /\ exitcode s = 0
       /\ output s = init_output hosts /\ tasks s = hosts
     else
       i s + len (running s) + len (tasks s) = len hosts
       /\ (hosts <> [] -> 0 < len (tasks s) + len (running s)).

(** A state of join mode in which three children have delivered
    "x", "x" and "y". *)
Definition three_hosts : state :=
  State [] 3 0 [(0%nat, "A"); (1%nat, "B"); (2%nat, "C")] 3 0 0 None
    [("A", "x"); ("B", "x"); ("C", "y")].

(** ** Reading the hosts *)

(** [str.split('\n')]: the pieces between the newlines, the empty ones
    included; there is always at least one piece. *)
Fixpoint split_newline (s : string) : list string :=
  match s with
  | EmptyString => [EmptyString]
  | String ch r =>
      if Ascii.eqb ch "010"%char then EmptyString :: split_newline r
      else
        match split_newline r with
        | [] => [String ch EmptyString]
        | x :: xs => String ch x :: xs
        end
  end.

(** [fs.readFileSync(file, 'utf-8').split('\n').filter(function(a) {
    return a; })] applied to the text of the file: the empty string is the
    only string that is not truthy. *)
Definition read_hosts (content : string) : list string :=
  filter (fun a => negb (String.eqb a "")) (split_newline content).

Fixpoint has_newline (s : string) : bool :=
  match s with
  | EmptyString => false
  | String ch r => Ascii.eqb ch "010"%char || has_newline r
  end.

(** The options that end the option loop: [-h], [-u], [-v] and an option
    the parser does not know. *)
Definition stops (o : opt) : bool :=
  match o with Oh | Ou | Ov | Oother => true | _ => false end.

(** The [spawn] call of [processhost] for a host. *)
Definition started (c : config) (host : string) : effect :=
  spawn (hd (VStr "ssh") (cmd c host)) (tl (cmd c host)).

(** The line the ['close'] handler prints with [-e]. *)
Definition is_exit_line (e : effect) : bool :=
  match e with
  | console_log fmt [_; _; _] =>
      match fmt with Str _ => true | _ => false end
  | _ => false
  end.

Definition is_close (ev : event) : bool :=
  match ev with Close _ _ => true | _ => false end.

Definition is_signal (ev : event) : bool :=
  match ev with Sigusr1 _ => true | _ => false end.

(** The events of a run in which nothing goes wrong: a scheduled
    [q.process] call, or the ['close'] of a child that exited with 0. *)
Definition uneventful (ev : event) : bool :=
  match ev with
  | Tick => true
  | Close _ (Some n) => N.eqb n 0
  | _ => false
  end.

(** * Properties *)

(** ** Effects of the handlers *)

Lemma forallb_app_intro {A} (f : A -> bool) (l1 l2 : list A) :
  forallb f l1 = true -> forallb f l2 = true -> forallb f (l1 ++ l2) = true.
Proof. intros H1 H2. rewrite forallb_app, H1, H2. reflexivity. Qed.

Lemma forallb_not_in {A} (f : A -> bool) (l : list A) (x : A) :
  forallb (fun e => negb (f e)) l = true -> f x = true -> ~ In x l.
Proof.
  intros Hall Hx Hin. rewrite forallb_forall in Hall.
  apply Hall in Hin. rewrite Hx in Hin. discriminate.
Qed.

Section Effects.
Variable c : config.
Variable hosts : list string.
Variable stack : nat.

(** A class of effects none of which the script produces outside its data
    handlers and its [spawn] call. *)
Variable f : effect -> bool.
Hypothesis f_log :
  forall fmt a b, f (console_log (Str fmt) [a; b]) = false.
Hypothesis f_log3 :
  forall fmt a b d, f (console_log (Str fmt) [a; b; d]) = false.
Hypothesis f_log0 : forall t, f (console_log t []) = false.
Hypothesis f_grey : forall t a, f (console_log (Paint grey t) a) = false.
Hypothesis f_format : forall t a, f (stdout_write (Format t a)) = false.

Lemma vlog_quiet fmt args : free_of f (vlog c fmt args).
Proof.
  unfold free_of, vlog. destruct (debug c); simpl; [|reflexivity].
  rewrite f_log. reflexivity.
Qed.

Lemma progress_quiet s arg : free_of f [progress hosts s arg].
Proof. unfold free_of, progress. simpl. rewrite f_format. reflexivity. Qed.

Lemma summary_quiet diff n : free_of f (summary diff n).
Proof.
  unfold free_of, summary. simpl. rewrite f_log. simpl.
  induction (JsObject.keys diff) as [|t ks IH]; [reflexivity|].
  simpl. rewrite f_grey, f_log0. simpl. exact IH.
Qed.

Lemma drain_quiet s : free_of f (snd (drain c s)).
Proof.
  unfold drain. destruct (join c && negb (group c)).
  - destruct (group_by_output (output s)); cbn [snd]; [|reflexivity].
    apply forallb_app_intro; [apply summary_quiet | apply vlog_quiet].
  - apply vlog_quiet.
Qed.

Lemma after_quiet out r :
  free_of f out -> free_of f (snd r) -> free_of f (snd (after out r)).
Proof. intros. unfold after. cbn [snd]. now apply forallb_app_intro. Qed.

(** A dry run of the queue prints debug lines and the summary only. *)
Lemma q_process_dry_quiet ts :
  dryrun c = true ->
  forall room s, free_of f (snd (q_process c room ts s)).
Proof.
  intros Hdry. induction ts as [|host rest IH]; intros room s;
    [reflexivity|].
  cbn [q_process]. rewrite Hdry.
  destruct (below (workers s) (maxjobs c)); [|reflexivity].
  match goal with |- context [if ?b then _ else _] => destruct b end.
  - apply after_quiet; [apply vlog_quiet | apply drain_quiet].
  - destruct room as [|room'];
      (apply after_quiet; [apply vlog_quiet|]); [reflexivity | apply IH].
Qed.

(** The same for a real run as long as [spawn] is not in the class. *)
Lemma q_process_quiet ts :
  (forall file args, f (spawn file args) = false) ->
  forall room s, free_of f (snd (q_process c room ts s)).
Proof.
  intros Hsp. induction ts as [|host rest IH]; intros room s;
    [reflexivity|].
  cbn [q_process].
  destruct (below (workers s) (maxjobs c)); [|reflexivity].
  destruct (dryrun c).
  - match goal with |- context [if ?b then _ else _] => destruct b end.
    + apply after_quiet; [apply vlog_quiet | apply drain_quiet].
    + destruct room as [|room'];
        (apply after_quiet; [apply vlog_quiet|]); [reflexivity | apply IH].
  - cbn [snd]. apply forallb_app_intro; [apply vlog_quiet|].
    unfold free_of. simpl. rewrite Hsp. reflexivity.
Qed.

Lemma next_quiet s :
  (forall file args, f (spawn file args) = false) ->
  free_of f (snd (next c stack s)).
Proof.
  intros Hsp. unfold next.
  match goal with |- context [if ?b then _ else _] => destruct b end.
  - apply drain_quiet.
  - now apply q_process_quiet.
Qed.

Lemma on_close_quiet s pid host code :
  (forall file args, f (spawn file args) = false) ->
  free_of f (snd (on_close c hosts stack s pid host code)).
Proof.
  intros Hsp. unfold on_close. apply after_quiet; [|now apply next_quiet].
  unfold exit_report. destruct (errorcodes c).
  - unfold free_of. simpl. rewrite f_log3. reflexivity.
  - destruct (join c); [apply progress_quiet | reflexivity].
Qed.
End Effects.

(** ** Runs *)

(** A property of the outcome that every turn of the loop keeps, together
    with a class of effects no turn produces, holds of every run. *)
Lemma run_outcome (c : config) (hosts : list string) (stack : nat)
    (Q : outcome -> Prop) (g : effect -> bool) :
  (forall s ev o out,
      Q (Continue s) -> step c hosts stack s ev = Some (o, out) ->
      forallb g out = true /\ Q o) ->
  forall evs s o out,
    Q (Continue s) -> run c hosts stack s evs = Some (o, out) ->
    forallb g out = true /\ Q o.
Proof.
  intros Hstep. induction evs as [|ev rest IH]; intros s o out Hs Hrun.
  - cbn in Hrun. inversion Hrun; subst. split; [reflexivity | exact Hs].
  - cbn [run] in Hrun.
    destruct (step c hosts stack s ev) as [[o1 out1]|] eqn:E; [|discriminate].
    destruct (Hstep _ _ _ _ Hs E) as [Hout1 Ho1].
    destruct o1 as [s1| |].
    + destruct (run c hosts stack s1 rest) as [[o2 out2]|] eqn:E2;
        [|discriminate].
      inversion Hrun; subst. cbn [fst snd].
      destruct (IH _ _ _ Ho1 E2) as [Hout2 Ho2].
      split; [now apply forallb_app_intro | exact Ho2].
    + destruct rest; [|discriminate]. inversion Hrun; subst. now split.
    + destruct rest; [|discriminate]. inversion Hrun; subst. now split.
Qed.

(** ** Validation of the options *)

Lemma boot_started (c : config) (hosts : list string) :
  validate c = None -> fst (boot c hosts) = Started (init hosts).
Proof. intros H. unfold boot. rewrite H. reflexivity. Qed.

(** C4.  A configuration with no remote command, with group and join mode
    together, or with join mode and the silent flag together is rejected by
    the top level of the script: it writes one message to standard error and
    leaves through [process.exit(1)].  The script stops there, before the
    queue exists: no state is started and nothing is spawned. *)
Theorem configuration_errors_are_fatal (c : config) (hosts : list string) :
  command c = [] \/ (group c = true /\ join c = true)
  \/ (join c = true /\ silent c = true) ->
  exists msg code,
    boot c hosts = (Rejected code, [console_error (Str msg) []])
    /\ code <> 0.
Proof.
  intros H. unfold boot, validate.
  destruct (command c) as [|w ws].
  - exists "no command specified", 1. split; [reflexivity | lia].
  - destruct H as [H | [[Hg Hj] | [Hj Hs]]]; [discriminate | |].
    + rewrite Hg, Hj. eexists. exists 1. split; [reflexivity | lia].
    + rewrite Hj, Hs.
      destruct (group c); eexists; exists 1; (split; [reflexivity | lia]).
Qed.

Lemma configuration_errors_are_fatal_witness :
  exists msg code,
    boot (set_silent uname_join) ["a"; "b"]
    = (Rejected code, [console_error (Str msg) []])
    /\ code <> 0.
Proof.
  apply configuration_errors_are_fatal.
  right; right. split; reflexivity.
Defined.

(** The three messages. *)
Example rejected_messages :
  boot (defaults []) ["a"]
  = (Rejected 1, [console_error (Str "no command specified") []])
  /\ boot (set_join uname_group) ["a"]
     = (Rejected 1,
        [console_error (Str "option `-g` and `-j` are mutually exclusive") []])
  /\ boot (set_silent uname_join) ["a"]
     = (Rejected 1,
        [console_error (Str "option `-j` and `-s` are mutually exclusive") []]).
Proof. repeat split. Qed.

(** ** The cap on concurrent jobs *)

Lemma validate_ignores_maxjobs (c : config) (m : number) :
  validate (set_maxjobs m c) = validate c.
Proof. reflexivity. Qed.

(** A cap that is an integer is compared as an integer. *)
Lemma below_int (w k : Z) : below w (int k) = (w <? k).
Proof. unfold below, int. cbn. now rewrite Z.mul_1_r. Qed.

(** No slot is ever free with an integer cap of zero or less. *)
Lemma below_zero_int (k : Z) : below 0 (int k) = false <-> k <= 0.
Proof. rewrite below_int. apply Z.ltb_ge. Qed.

(** A count below the cap leaves the smaller counts below it. *)
Lemma below_mono (m : number) (w w' : Z) :
  w' <= w -> below w m = true -> below w' m = true.
Proof.
  intros Hle. destruct m as [q|neg|]; cbn [below]; [|auto|auto].
  rewrite !Z.ltb_lt. nia.
Qed.

Lemma below_full (m : number) (w w' : Z) :
  w <= w' -> below w m = false -> below w' m = false.
Proof.
  intros Hle H. destruct (below w' m) eqn:E; [|reflexivity].
  rewrite (below_mono m w' w Hle E) in H. discriminate.
Qed.

(** With a cap of zero or less, or one that is not a number, the queue
    never starts a job: the only events that can occur are the scheduled
    [q.process] calls, which find no free slot, and SIGUSR1. *)
Lemma idle_step (c : config) (hosts : list string) (stack : nat)
    (s : state) ev o out :
  below 0 (maxjobs c) = false -> workers s = 0 -> running s = [] ->
  step c hosts stack s ev = Some (o, out) ->
  free_of is_spawn out
  /\ exists s', o = Continue s' /\ workers s' = 0 /\ running s' = []
               /\ tasks s' = tasks s /\ i s' = i s
               /\ exitcode s' = exitcode s.
Proof.
  intros Hm Hw Hr H. destruct ev as [|pid k d|pid code|pid|arg]; cbn in H.
  - destruct (ticks s) as [|n]; [discriminate|].
    destruct (tasks s) as [|h r] eqn:Et; cbn in H.
    + inversion H; subst. split; [reflexivity|].
      eexists; repeat split; cbn; auto.
    + rewrite Hw, Hm in H.
      inversion H; subst. split; [reflexivity|].
      eexists; repeat split; cbn; auto.
  - rewrite Hr in H. discriminate.
  - rewrite Hr in H. discriminate.
  - rewrite Hr in H. discriminate.
  - inversion H; subst. split; [reflexivity|].
    eexists; repeat split; auto.
Qed.

(** C6 (as the script has it).  The validation does not look at the cap: a
    value of zero or less (any value that 0 is not below, NaN included)
    passes it like any other, no error is written, and the value reaches
    the queue unchanged.  With such a cap no job is ever started: every run
    leaves all hosts pending, spawns nothing, counts nothing as finished and
    never reaches the drain handler. *)
Theorem nonpositive_maxjobs_is_accepted (c : config) (hosts : list string)
    (stack : nat) :
  below 0 (maxjobs c) = false -> validate c = None ->
  (exists out, boot c hosts = (Started (init hosts), out)
               /\ free_of is_error out)
  /\ forall evs o out,
       run c hosts stack (init hosts) evs = Some (o, out) ->
       free_of is_spawn out
       /\ exists s, o = Continue s /\ tasks s = hosts /\ running s = []
                    /\ i s = 0.
Proof.
  intros Hm Hv. split.
  - unfold boot. rewrite Hv. eexists. split; [reflexivity|].
    unfold vlog, progress. destruct (debug c), (join c); reflexivity.
  - intros evs o out Hrun.
    pose (Q := fun o : outcome =>
                 exists s, o = Continue s /\ workers s = 0 /\ running s = []
                           /\ tasks s = hosts /\ i s = 0).
    destruct (run_outcome c hosts stack Q (fun e => negb (is_spawn e))) with
      (evs := evs) (s := init hosts) (o := o) (out := out) as [Ho HQ].
    + intros s ev o1 out1 (s0 & E & Hw & Hr & Ht & Hi) Hs.
      inversion E; subst s0.
      destruct (idle_step c hosts stack s ev o1 out1 Hm Hw Hr Hs)
        as [Hsp (s' & -> & Hw' & Hr' & Ht' & Hi' & _)].
      split; [exact Hsp|]. exists s'. repeat split; congruence.
    + exists (init hosts). repeat split.
    + exact Hrun.
    + split; [exact Ho|]. destruct HQ as (s & -> & _ & Hr & Ht & Hi).
      exists s. repeat split; assumption.
Qed.

Lemma nonpositive_maxjobs_is_accepted_witness :
  (exists out, boot (set_maxjobs (int 0) uname) ["a"; "b"]
               = (Started (init ["a"; "b"]), out)
               /\ free_of is_error out)
  /\ forall evs o out,
       run (set_maxjobs (int 0) uname) ["a"; "b"] plenty (init ["a"; "b"])
         evs
       = Some (o, out) ->
       free_of is_spawn out
       /\ exists s, o = Continue s /\ tasks s = ["a"; "b"] /\ running s = []
                    /\ i s = 0.
Proof.
  apply (nonpositive_maxjobs_is_accepted (set_maxjobs (int 0) uname)
           ["a"; "b"] plenty).
  - reflexivity.
  - reflexivity.
Defined.

(** C6 fails as stated: [-m -1] and [-m 0] are parsed, pass the validation
    and start the script without any error message; the scheduled
    [q.process] calls then run and start nothing. *)
Lemma maxjobs_is_not_validated :
  parse [Om (int (-1))] ["uname"] = Options (set_maxjobs (int (-1)) uname)
  /\ boot (set_maxjobs (int (-1)) uname) ["a"] = (Started (init ["a"]), [])
  /\ run (set_maxjobs (int (-1)) uname) ["a"] plenty (init ["a"]) [Tick]
     = Some (Continue (State ["a"] 0 0 [] 0 0 0 None [("a", "")]), [])
  /\ boot (set_maxjobs (int 0) uname) ["a"] = (Started (init ["a"]), [])
  /\ run (set_maxjobs (int 0) uname) ["a"] plenty (init ["a"]) [Tick]
     = Some (Continue (State ["a"] 0 0 [] 0 0 0 None [("a", "")]), []).
Proof. repeat split. Qed.

(** ** The queue *)

Lemma len_nil {A} : len (@nil A) = 0.
Proof. reflexivity. Qed.

Lemma len_cons {A} (x : A) (l : list A) : len (x :: l) = len l + 1.
Proof. unfold len. cbn [length]. lia. Qed.

Lemma len_app {A} (l1 l2 : list A) : len (l1 ++ l2) = len l1 + len l2.
Proof. unfold len. rewrite length_app. lia. Qed.

Lemma len_nonneg {A} (l : list A) : 0 <= len l.
Proof. unfold len. lia. Qed.

Lemma len_zero {A} (l : list A) : len l = 0 -> l = [].
Proof.
  destruct l as [|x r]; [reflexivity|]. rewrite len_cons.
  pose proof (len_nonneg r). lia.
Qed.

Lemma remove_child_len pid l host :
  child pid l = Some host -> len (remove_child pid l) = len l - 1.
Proof.
  induction l as [|[p h] r IH]; cbn [child remove_child]; [discriminate|].
  destruct (Nat.eqb p pid).
  - intros _. rewrite len_cons. lia.
  - intros H. rewrite !len_cons, IH by exact H. lia.
Qed.

Section Queue.
Variable c : config.
Variable hosts : list string.
Variable stack : nat.

(** Outside a dry run [q.process] starts at most one job. *)
Lemma q_process_spawns room ts s :
  dryrun c = false ->
  q_process c room ts s =
  match ts with
  | [] => (Continue s, [])
  | host :: rest =>
      if below (workers s) (maxjobs c) then
        (Continue
           (State rest (workers s + 1) (ticks s)
              (running s ++ [(spawned s, host)]) (S (spawned s))
              (i s) (exitcode s) (lasthost s) (output s)),
         vlog c "[%s] %s" [Paint yellow (Str host); Inspect (cmd c host)]
         ++ [spawn (hd (VStr "ssh") (cmd c host)) (tl (cmd c host))])
      else (Continue s, [])
  end.
Proof.
  intros Hdry. destruct ts; cbn [q_process]; rewrite ?Hdry; reflexivity.
Qed.

(** In a dry run one [q.process] call with a free slot goes through the
    whole backlog and ends in the drain handler, when the stack holds one
    nested call for each host after the first. *)
Lemma q_process_dry ts :
  dryrun c = true -> below 0 (maxjobs c) = true -> ts <> [] ->
  forall room s, workers s = 0 -> (length ts <= S room)%nat ->
    q_process c room ts s =
    after (flat_map
             (fun host => vlog c "[%s] %s"
                            [Paint yellow (Str host); Inspect (cmd c host)])
             ts)
      (drain c (State [] 0 (ticks s) (running s) (spawned s) (i s)
                  (exitcode s) (lasthost s) (output s))).
Proof.
  intros Hdry Hm. induction ts as [|host rest IH]; intros Hne room s Hw Hlen;
    [congruence|].
  cbn [q_process flat_map]. rewrite Hdry, Hw, Hm.
  change (0 + 1 - 1) with 0. cbn [workers].
  destruct rest as [|h2 rest'].
  - cbn [len length Z.of_nat Z.add Z.eqb flat_map]. rewrite app_nil_r.
    reflexivity.
  - replace (len (h2 :: rest') + 0 =? 0) with false
      by (symmetry; apply Z.eqb_neq; rewrite len_cons;
          pose proof (len_nonneg rest'); lia).
    destruct room as [|room']; [cbn [length] in Hlen; lia|].
    rewrite IH by (cbn [length] in *; (congruence || reflexivity || lia)).
    unfold after. cbn [fst snd tasks workers ticks running spawned i
                         exitcode lasthost output].
    rewrite app_assoc. reflexivity.
Qed.

(** With more hosts than that, the call dies after the debug lines of the
    hosts it had room for. *)
Lemma q_process_overflow ts :
  dryrun c = true -> below 0 (maxjobs c) = true ->
  forall room s, workers s = 0 -> (S room < length ts)%nat ->
    q_process c room ts s =
    (Crashed,
     flat_map
       (fun host => vlog c "[%s] %s"
                      [Paint yellow (Str host); Inspect (cmd c host)])
       (firstn (S room) ts)).
Proof.
  intros Hdry Hm. induction ts as [|host rest IH]; intros room s Hw Hlen;
    [cbn [length] in Hlen; lia|].
  cbn [q_process flat_map firstn]. rewrite Hdry, Hw, Hm.
  change (0 + 1 - 1) with 0. cbn [workers].
  destruct rest as [|h2 rest']; [cbn [length] in Hlen; lia|].
  replace (len (h2 :: rest') + 0 =? 0) with false
    by (symmetry; apply Z.eqb_neq; rewrite len_cons;
        pose proof (len_nonneg rest'); lia).
  destruct room as [|room'].
  - unfold after. cbn [fst snd firstn flat_map]. reflexivity.
  - rewrite IH by (cbn [length] in *; (reflexivity || lia)).
    unfold after. cbn [fst snd]. reflexivity.
Qed.

Lemma q_process_full room ts s :
  below (workers s) (maxjobs c) = false ->
  q_process c room ts s = (Continue s, []).
Proof.
  intros H. destruct ts; cbn [q_process]; [reflexivity|].
  now rewrite H.
Qed.

(** [q.drain] leaves with the accumulated exit code or dies in the
    summary; it never returns to the loop. *)
Lemma drain_outcome s :
  fst (drain c s) = Exited (exitcode s) s \/ fst (drain c s) = Crashed.
Proof.
  unfold drain. destruct (join c && negb (group c)); [|now left].
  destruct (group_by_output (output s)); [now left | now right].
Qed.

(** In a dry run a [q.process] call that finds a host and a free slot
    never returns to the loop. *)
Lemma q_process_dry_ends ts :
  dryrun c = true -> below 0 (maxjobs c) = true -> ts <> [] ->
  forall room s,
    workers s = 0 -> ended (fst (q_process c room ts s)) = true.
Proof.
  intros Hdry Hm. induction ts as [|host rest IH]; intros Hne room s Hw;
    [congruence|].
  cbn [q_process]. rewrite Hdry, Hw, Hm.
  change (0 + 1 - 1) with 0. cbn [workers].
  destruct (len rest + 0 =? 0) eqn:Ez; unfold after; cbn [fst].
  - match goal with |- context [drain c ?x] =>
      destruct (drain_outcome x) as [E|E] end; now rewrite E.
  - destruct room as [|room']; cbn [fst]; [reflexivity|].
    apply IH; [|reflexivity]. intros ->. discriminate.
Qed.
End Queue.

(** ** The aggregate exit code *)

Lemma some_pair_fst {A B} (r : A * B) (a : A) (b : B) :
  Some r = Some (a, b) -> fst r = a.
Proof. intros H. injection H as ->. reflexivity. Qed.

Lemma some_pair_snd {A B} (r : A * B) (a : A) (b : B) :
  Some r = Some (a, b) -> snd r = b.
Proof. intros H. injection H as ->. reflexivity. Qed.

Ltac outcome_of H Ho := pose proof (some_pair_fst _ _ _ H) as Ho.

Section ExitCode.
Variable c : config.
Variable hosts : list string.
Variable stack : nat.

Lemma drain_exitcode s x :
  final_exitcode (fst (drain c s)) = Some x -> x = exitcode s.
Proof.
  destruct (drain_outcome c s) as [E|E]; rewrite E; cbn; congruence.
Qed.

Lemma q_process_exitcode ts :
  forall room s x,
    final_exitcode (fst (q_process c room ts s)) = Some x -> x = exitcode s.
Proof.
  induction ts as [|host rest IH]; intros room s x; cbn [q_process].
  - cbn. congruence.
  - destruct (below (workers s) (maxjobs c)); [|cbn; congruence].
    destruct (dryrun c); [|cbn; congruence].
    match goal with |- context [if ?b then _ else _] => destruct b end;
      [|destruct room as [|room']]; unfold after; cbn [fst]; intros H.
    + now apply drain_exitcode in H.
    + discriminate.
    + now apply IH in H.
Qed.

Lemma next_exitcode s x :
  final_exitcode (fst (next c stack s)) = Some x -> x = exitcode s.
Proof.
  unfold next.
  match goal with |- context [if ?b then _ else _] => destruct b end;
    intros H.
  - now apply drain_exitcode in H.
  - now apply q_process_exitcode in H.
Qed.

Lemma step_exitcode s ev o out x :
  step c hosts stack s ev = Some (o, out) -> final_exitcode o = Some x ->
  x = exitcode s + contribution ev.
Proof.
  destruct ev as [|pid k d|pid code|pid|arg]; cbn [step contribution];
    intros H Hx.
  - destruct (ticks s); [discriminate|]. outcome_of H Ho.
    rewrite <- Ho in Hx. apply q_process_exitcode in Hx. cbn in Hx. lia.
  - destruct (child pid (running s)); [|discriminate].
    destruct (on_data c s s0 k d) as [s' out'] eqn:E.
    inversion H; subst. cbn in Hx. inversion Hx; subst.
    unfold on_data in E.
    destruct (silent c); [inversion E; lia|].
    destruct (group c); [inversion E; cbn; lia|].
    destruct (join c); inversion E; cbn; lia.
  - destruct (child pid (running s)); [|discriminate].
    outcome_of H Ho. rewrite <- Ho in Hx.
    unfold on_close, after in Hx. cbn [fst] in Hx.
    apply next_exitcode in Hx. cbn in Hx. exact Hx.
  - destruct (child pid (running s)); [|discriminate].
    inversion H; subst. discriminate.
  - inversion H; subst. cbn in Hx. inversion Hx. lia.
Qed.

Lemma step_exited s ev code s' out :
  step c hosts stack s ev = Some (Exited code s', out) -> code = exitcode s'.
Proof.
  assert (D : forall s0 r, fst (drain c s0) = Exited code s' ->
                           r = 0 -> code = exitcode s').
  { intros s0 r E _. destruct (drain_outcome c s0) as [E'|E'];
      rewrite E' in E; inversion E; subst; reflexivity. }
  assert (Q : forall ts room s0,
             fst (q_process c room ts s0) = Exited code s' ->
             code = exitcode s').
  { induction ts as [|host rest IH]; intros room s0; cbn [q_process].
    - cbn. discriminate.
    - destruct (below (workers s0) (maxjobs c)); [|cbn; discriminate].
      destruct (dryrun c); [|cbn; discriminate].
      match goal with |- context [if ?b then _ else _] => destruct b end;
        [|destruct room as [|room']]; unfold after; cbn [fst]; intros H.
      + eapply D; eauto.
      + discriminate.
      + eapply IH; eauto. }
  destruct ev as [|pid k d|pid st|pid|arg]; cbn [step]; intros H.
  - destruct (ticks s); [discriminate|]. outcome_of H Ho.
    eapply Q. exact Ho.
  - destruct (child pid (running s)); [|discriminate].
    destruct (on_data c s s0 k d). discriminate.
  - destruct (child pid (running s)); [|discriminate].
    outcome_of H Ho. unfold on_close, after in Ho. cbn [fst] in Ho.
    unfold next in Ho.
    match type of Ho with context [if ?b then _ else _] => destruct b end.
    + eapply D; eauto.
    + eapply Q; eauto.
  - destruct (child pid (running s)); discriminate.
  - discriminate.
Qed.

End ExitCode.







(** ** The state between two events *)

Section Invariant.
Variable c : config.
Variable hosts : list string.
Variable stack : nat.

Lemma inv_init : inv c hosts (init hosts).
Proof.
  unfold inv, init. cbn [workers running i tasks exitcode output].
  change (len (@nil (nat * string))) with 0.
  pose proof (len_nonneg hosts).
  split; [reflexivity|]. split; [lia|]. split; [lia|].
  destruct (dryrun c); repeat split; try lia.
  intros Hne. destruct hosts as [|h r]; [congruence|].
  rewrite len_cons. pose proof (len_nonneg r). lia.
Qed.

Lemma inv_ticks s n :
  inv c hosts s ->
  inv c hosts (State (tasks s) (workers s) n (running s) (spawned s) (i s)
                 (exitcode s) (lasthost s) (output s)).
Proof. intros H. exact H. Qed.

Lemma child_some_nonempty pid l host :
  child pid l = Some host -> 0 < len l.
Proof.
  destruct l as [|x r]; [discriminate|]. intros _. rewrite len_cons.
  pose proof (len_nonneg r). lia.
Qed.

Lemma inv_alive s pid host :
  inv c hosts s -> child pid (running s) = Some host ->
  dryrun c = false /\ below (workers s - 1) (maxjobs c) = true
  /\ 1 <= workers s.
Proof.
  intros (Hw & Hmax & Hi & Hmode) Hch.
  pose proof (child_some_nonempty _ _ _ Hch) as Hpos.
  destruct (dryrun c).
  - destruct Hmode as (_ & Hr & _). rewrite Hr in Hch. discriminate.
  - split; [reflexivity|]. split; [apply Hmax|]; lia.
Qed.

(** The queue's [q.process] keeps the invariant when it returns to the
    loop. *)
Lemma inv_q_process room s s' out :
  inv c hosts s -> q_process c room (tasks s) s = (Continue s', out) ->
  inv c hosts s'.
Proof.
  intros Hinv Hq. pose proof Hinv as (Hw & Hmax & Hi & Hmode).
  destruct (dryrun c) eqn:Hdry.
  - destruct Hmode as (Hi0 & Hr & He & Ho).
    rewrite Hr in Hw. change (len (@nil (nat * string))) with 0 in Hw.
    destruct (below 0 (maxjobs c)) eqn:Em.
    + destruct (tasks s) as [|h r] eqn:Et.
      * cbn in Hq. inversion Hq; subst. exact Hinv.
      * pose proof (q_process_dry_ends c (h :: r) Hdry Em
                      ltac:(discriminate) room s Hw) as E.
        rewrite Hq in E. discriminate.
    + rewrite q_process_full in Hq by (now rewrite Hw).
      inversion Hq; subst. exact Hinv.
  - destruct Hmode as (Hsum & Hpos).
    rewrite (q_process_spawns c _ _ _ Hdry) in Hq.
    destruct (tasks s) as [|h r] eqn:Et.
    + inversion Hq; subst. exact Hinv.
    + destruct (below (workers s) (maxjobs c)) eqn:Em.
      * inversion Hq; subst. unfold inv.
        cbn [workers running i tasks]. rewrite Hdry.
        rewrite len_app, len_cons.
        change (len (@nil (nat * string))) with 0. rewrite len_cons in Hsum.
        pose proof (len_nonneg r). pose proof (len_nonneg (running s)).
        split; [lia|]. split.
        { intros _. now replace (workers s + 1 - 1) with (workers s) by lia. }
        repeat split; lia.
      * inversion Hq; subst. exact Hinv.
Qed.

Lemma inv_step s ev s' out :
  inv c hosts s -> step c hosts stack s ev = Some (Continue s', out) ->
  inv c hosts s'.
Proof.
  intros Hinv Hstep.
  destruct ev as [|pid k d|pid code|pid|arg]; cbn [step] in Hstep.
  - destruct (ticks s) as [|n]; [discriminate|].
    injection Hstep as Hq.
    exact (inv_q_process _ _ _ _ (inv_ticks s n Hinv) Hq).
  - destruct (child pid (running s)) as [host|] eqn:Hch; [|discriminate].
    destruct (inv_alive _ _ _ Hinv Hch) as (Hdry & _).
    destruct (on_data c s host k d) as [s1 out1] eqn:E.
    inversion Hstep; subst. unfold on_data in E.
    unfold inv in *. rewrite Hdry in *.
    destruct (silent c); [inversion E; subst; exact Hinv|].
    destruct (group c); [inversion E; subst; exact Hinv|].
    destruct (join c); inversion E; subst; exact Hinv.
  - destruct (child pid (running s)) as [host|] eqn:Hch; [|discriminate].
    destruct (inv_alive _ _ _ Hinv Hch) as (Hdry & Hfree & Hone).
    outcome_of Hstep Hn. unfold on_close, after in Hn. cbn [fst] in Hn.
    unfold next in Hn.
    cbn [tasks workers ticks running spawned i exitcode lasthost output]
      in Hn.
    pose proof Hinv as (Hw & Hmax & Hi & Hmode). rewrite Hdry in Hmode.
    destruct Hmode as (Hsum & Hpos).
    pose proof (remove_child_len _ _ _ Hch) as Hlen.
    match type of Hn with context [if ?b then _ else _] =>
      destruct b eqn:Ez end.
    + match type of Hn with fst (drain c ?x) = _ =>
        destruct (drain_outcome c x) as [E|E] end;
        rewrite E in Hn; discriminate.
    + apply Z.eqb_neq in Ez.
      match type of Hn with fst (q_process c _ _ ?x) = _ =>
        destruct (q_process c stack (tasks s) x) as [o1 out1] eqn:Eq;
        assert (Hx : inv c hosts x) end.
      { unfold inv.
        cbn [tasks workers ticks running spawned i exitcode lasthost output].
        rewrite Hdry. pose proof (len_nonneg (tasks s)).
        split; [lia|]. split.
        { intros _. apply (below_mono _ (workers s - 1)); [lia | exact Hfree]. }
        repeat split; try lia. }
      cbn [fst] in Hn. subst o1.
      eapply inv_q_process; [exact Hx | exact Eq].
  - destruct (child pid (running s)); discriminate.
  - inversion Hstep; subst. exact Hinv.
Qed.

Lemma reachable_inv s : reachable c hosts stack s -> inv c hosts s.
Proof.
  induction 1 as [|s ev s' out _ IH Hstep]; [apply inv_init|].
  eapply inv_step; eauto.
Qed.
End Invariant.

(** ** The count of finished jobs *)

Section Count.
Variable c : config.
Variable hosts : list string.
Variable stack : nat.

Lemma drain_count s s' :
  final_state (fst (drain c s)) = Some s' -> i s' = i s.
Proof.
  destruct (drain_outcome c s) as [E|E]; rewrite E; cbn; congruence.
Qed.

Lemma q_process_count ts :
  forall room s s',
    final_state (fst (q_process c room ts s)) = Some s' -> i s' = i s.
Proof.
  induction ts as [|host rest IH]; intros room s s'; cbn [q_process].
  - cbn. congruence.
  - destruct (below (workers s) (maxjobs c)); [|cbn; congruence].
    destruct (dryrun c); [|cbn; intros H; inversion H; reflexivity].
    match goal with |- context [if ?b then _ else _] => destruct b end;
      [|destruct room as [|room']]; unfold after; cbn [fst]; intros H.
    + now apply drain_count in H.
    + discriminate.
    + now apply IH in H.
Qed.

Lemma step_count s ev o out s' :
  step c hosts stack s ev = Some (o, out) -> final_state o = Some s' ->
  i s' = i s + counted ev.
Proof.
  destruct ev as [|pid k d|pid code|pid|arg]; cbn [step counted];
    intros H Hs.
  - destruct (ticks s); [discriminate|]. outcome_of H Ho.
    rewrite <- Ho in Hs. apply q_process_count in Hs. cbn in Hs. lia.
  - destruct (child pid (running s)) as [host|]; [|discriminate].
    destruct (on_data c s host k d) as [s1 out1] eqn:E.
    inversion H; subst. cbn in Hs. inversion Hs; subst.
    unfold on_data in E.
    destruct (silent c); [inversion E; lia|].
    destruct (group c); [inversion E; cbn; lia|].
    destruct (join c); inversion E; cbn; lia.
  - destruct (child pid (running s)); [|discriminate].
    outcome_of H Ho. rewrite <- Ho in Hs.
    unfold on_close, after in Hs. cbn [fst] in Hs. unfold next in Hs.
    match type of Hs with context [if ?b then _ else _] => destruct b end.
    + apply drain_count in Hs. cbn in Hs. exact Hs.
    + apply q_process_count in Hs. cbn in Hs. exact Hs.
  - destruct (child pid (running s)); [|discriminate].
    inversion H; subst. discriminate.
  - inversion H; subst. cbn in Hs. inversion Hs. lia.
Qed.

(** Outside a dry run the ['close'] of a child ends the loop exactly
    when it is the last host's. *)
Lemma close_ends s pid code o out :
  inv c hosts s -> step c hosts stack s (Close pid code) = Some (o, out) ->
  (ended o = true <-> i s + 1 = len hosts).
Proof.
  intros Hinv H. cbn [step] in H.
  destruct (child pid (running s)) as [host|] eqn:Hch; [|discriminate].
  destruct (inv_alive _ _ _ _ _ Hinv Hch) as (Hdry & Hfree & Hone).
  pose proof Hinv as (Hw & Hmax & Hi & Hmode). rewrite Hdry in Hmode.
  destruct Hmode as (Hsum & Hpos).
  outcome_of H Ho. unfold on_close, after in Ho. cbn [fst] in Ho.
  unfold next in Ho.
  cbn [tasks workers ticks running spawned i exitcode lasthost output]
    in Ho.
  match type of Ho with context [if ?b then _ else _] =>
    destruct b eqn:Ez end.
  - apply Z.eqb_eq in Ez.
    match type of Ho with fst (drain c ?x) = _ =>
      destruct (drain_outcome c x) as [E|E] end;
      rewrite E in Ho; subst o; cbn; split; intros _; (reflexivity || lia).
  - apply Z.eqb_neq in Ez. rewrite (q_process_spawns c _ _ _ Hdry) in Ho.
    cbn [workers] in Ho.
    assert (Hc : ended o = false).
    { destruct (tasks s); [subst o; reflexivity|].
      destruct (below (workers s - 1) (maxjobs c)); subst o; reflexivity. }
    rewrite Hc. split; [discriminate | lia].
Qed.

Lemma only_close_ends s ev o out :
  inv c hosts s -> dryrun c = false ->
  step c hosts stack s ev = Some (o, out) -> ended o = true ->
  (exists pid code, ev = Close pid code) \/ (exists pid, ev = Error pid).
Proof.
  intros Hinv Hdry H He.
  destruct ev as [|pid k d|pid code|pid|arg]; cbn [step] in H.
  - destruct (ticks s); [discriminate|]. outcome_of H Ho.
    rewrite (q_process_spawns c _ _ _ Hdry) in Ho.
    destruct (tasks s); [subst o; discriminate|]. cbn [workers] in Ho.
    destruct (below (workers s) (maxjobs c)); subst o; discriminate.
  - destruct (child pid (running s)) as [host|]; [|discriminate].
    destruct (on_data c s host k d). inversion H; subst. discriminate.
  - left. eauto.
  - right. eauto.
  - inversion H; subst. discriminate.
Qed.
End Count.

(** C8 (as the script has it).  Between any two events the count [i] of
    finished jobs lies between 0 and the number of hosts, and no turn of the
    loop lowers it.  Outside a dry run, and with at least one host, the
    count stays below the number of hosts as long as the loop goes on; the
    ['close'] that brings it to the number of hosts is the one turn that
    enters the drain handler, which ends the loop, so that this happens at
    most once, in the turn of the last ['close'] and after its count; no
    other event of a live run enters it.  In a dry run the count stays 0. *)
Theorem completed_count (c : config) (hosts : list string) (stack : nat)
    (s : state) :
  reachable c hosts stack s ->
  0 <= i s <= len hosts
  /\ (forall ev s' out,
        step c hosts stack s ev = Some (Continue s', out) -> i s <= i s')
  /\ (dryrun c = true -> i s = 0)
  /\ (dryrun c = false ->
      (hosts <> [] -> i s < len hosts)
      /\ (forall pid code o out,
            step c hosts stack s (Close pid code) = Some (o, out) ->
            (ended o = true <-> i s + 1 = len hosts)
            /\ forall code' s', o = Exited code' s' -> i s' = len hosts)
      /\ (forall ev o out,
            step c hosts stack s ev = Some (o, out) -> ended o = true ->
            (exists pid code, ev = Close pid code)
            \/ (exists pid, ev = Error pid))).
Proof.
  intros Hr. pose proof (reachable_inv c hosts stack s Hr) as Hinv.
  pose proof Hinv as (Hw & Hmax & Hi & Hmode).
  pose proof (len_nonneg (running s)). pose proof (len_nonneg (tasks s)).
  pose proof (len_nonneg hosts).
  split; [|split; [|split]].
  - destruct (dryrun c); [destruct Hmode as (-> & _); lia|].
    destruct Hmode as (Hsum & _). lia.
  - intros ev s' out Hs.
    pose proof (step_count c hosts stack s ev _ _ s' Hs eq_refl) as Hc.
    destruct ev; cbn in Hc; lia.
  - intros Hdry. rewrite Hdry in Hmode. tauto.
  - intros Hdry. rewrite Hdry in Hmode. destruct Hmode as (Hsum & Hpos).
    split; [|split].
    + intros Hne. specialize (Hpos Hne). lia.
    + intros pid code o out Hs.
      pose proof (close_ends c hosts stack s pid code o out Hinv Hs) as He.
      split; [exact He|]. intros code' s' ->.
      pose proof (step_count c hosts stack s _ _ _ s' Hs eq_refl) as Hc.
      cbn in Hc. destruct He as [He _]. specialize (He eq_refl). lia.
    + intros ev o out. now apply only_close_ends.
Qed.

(** ** Objects as maps *)

Lemma order_named (ks : list string) :
  Forall (fun k => JsObject.is_index k = false) ks -> JsObject.order ks = ks.
Proof.
  intros H. unfold JsObject.order.
  assert (E : JsObject.index_keys ks = [] /\ JsObject.named_keys ks = ks).
  { induction H as [|k ks Hk Hks [IH1 IH2]]; [split; reflexivity|].
    unfold JsObject.index_keys, JsObject.named_keys in *.
    cbn [fold_right filter]. rewrite Hk. cbn [negb].
    unfold JsObject.is_index in Hk.
    destruct (JsObject.array_index k); [discriminate|].
    split; [exact IH1 | now rewrite IH2]. }
  destruct E as [-> ->]. reflexivity.
Qed.

Lemma insert_index_in n k l x :
  In x (JsObject.insert_index n k l) -> x = (n, k) \/ In x l.
Proof.
  induction l as [|[m k'] r IH]; cbn [JsObject.insert_index].
  - intros [H|[]]. now left.
  - destruct (n <=? m)%N.
    + intros [H|H]; [now left | now right].
    + intros [H|H]; [right; now left|].
      destruct (IH H) as [E|E]; [now left | right; now right].
Qed.

Lemma order_in (ks : list string) (k : string) :
  In k (JsObject.order ks) -> In k ks.
Proof.
  unfold JsObject.order. intros H. apply in_app_or in H as [H|H].
  - apply in_map_iff in H as ([n k'] & E & H). cbn in E. subst k'.
    induction ks as [|a ks IH]; [contradiction|].
    unfold JsObject.index_keys in H. cbn [fold_right] in H.
    fold (JsObject.index_keys ks) in H.
    destruct (JsObject.array_index a).
    + apply insert_index_in in H as [E|H]; [inversion E; now left|].
      right. now apply IH.
    + right. now apply IH.
  - unfold JsObject.named_keys in H. now apply filter_In in H.
Qed.

Lemma keys_in {V} (o : JsObject.t V) (k : string) :
  In k (JsObject.keys o) -> In k (map fst o).
Proof. apply order_in. Qed.

Lemma insert_index_length n k l :
  length (JsObject.insert_index n k l) = S (length l).
Proof.
  induction l as [|[m k'] r IH]; cbn [JsObject.insert_index]; [reflexivity|].
  destruct (n <=? m)%N; cbn [length]; [reflexivity | now rewrite IH].
Qed.

(** [Object.keys] lists every key once. *)
Lemma order_length (ks : list string) :
  length (JsObject.order ks) = length ks.
Proof.
  unfold JsObject.order. rewrite length_app, length_map.
  induction ks as [|a ks IH]; [reflexivity|].
  unfold JsObject.index_keys, JsObject.named_keys in *.
  cbn [fold_right filter]. unfold JsObject.is_index at 1.
  destruct (JsObject.array_index a); cbn [negb length].
  - rewrite insert_index_length. lia.
  - lia.
Qed.

Section Objects.
Context {V : Type}.

(** An object built from a list of distinct keys. *)
Lemma own_map (g : string -> V) (ks : list string) (t : string) :
  JsObject.own (map (fun k => (k, g k)) ks) t
  = if existsb (String.eqb t) ks then Some (g t) else None.
Proof.
  induction ks as [|k ks IH]; [reflexivity|].
  cbn [map JsObject.own existsb]. rewrite (String.eqb_sym t k).
  destruct (String.eqb k t) eqn:E; [|exact IH].
  apply String.eqb_eq in E. subst. reflexivity.
Qed.

Lemma put_map_old (g : string -> V) (ks : list string) (t : string) (v : V) :
  NoDup ks -> In t ks ->
  JsObject.put (map (fun k => (k, g k)) ks) t v
  = map (fun k => (k, if String.eqb k t then v else g k)) ks.
Proof.
  induction ks as [|k ks IH]; intros Hnd Hin; [contradiction|].
  inversion Hnd as [|? ? Hk Hks]; subst.
  cbn [map JsObject.put]. destruct (String.eqb k t) eqn:E.
  - apply String.eqb_eq in E. subst k. f_equal.
    apply map_ext_in. intros k Hk'.
    destruct (String.eqb k t) eqn:E'; [|reflexivity].
    apply String.eqb_eq in E'. subst. contradiction.
  - f_equal. apply IH; [exact Hks|].
    destruct Hin as [->|Hin]; [|exact Hin].
    rewrite String.eqb_refl in E. discriminate.
Qed.

Lemma put_map_new (g : string -> V) (ks : list string) (t : string) (v : V) :
  ~ In t ks ->
  JsObject.put (map (fun k => (k, g k)) ks) t v
  = map (fun k => (k, g k)) ks ++ [(t, v)].
Proof.
  induction ks as [|k ks IH]; intros Hin; [reflexivity|].
  cbn [map JsObject.put app]. destruct (String.eqb k t) eqn:E.
  - apply String.eqb_eq in E. subst. exfalso. apply Hin. now left.
  - f_equal. apply IH. intros H. apply Hin. now right.
Qed.
End Objects.

Lemma existsb_eqb_in (t : string) (l : list string) :
  existsb (String.eqb t) l = true <-> In t l.
Proof.
  rewrite existsb_exists. split.
  - intros (x & Hx & E). apply String.eqb_eq in E. now subst.
  - intros H. exists t. split; [exact H | apply String.eqb_refl].
Qed.

Lemma existsb_eqb_not_in (t : string) (l : list string) :
  existsb (String.eqb t) l = false <-> ~ In t l.
Proof.
  rewrite <- existsb_eqb_in. destruct (existsb (String.eqb t) l); split;
    congruence.
Qed.

(** ** Distinct texts *)

Lemma distinct_in (x : string) (l : list string) :
  In x (distinct l) <-> In x l.
Proof.
  induction l as [|a r IH]; [reflexivity|].
  cbn [distinct In]. rewrite filter_In, IH.
  destruct (String.eqb x a) eqn:E.
  - apply String.eqb_eq in E. subst. tauto.
  - cbn [negb]. apply String.eqb_neq in E. split.
    + intros [H|[H _]]; auto.
    + intros [H|H]; [now left | right; now split].
Qed.

Lemma distinct_nodup (l : list string) : NoDup (distinct l).
Proof.
  induction l as [|a r IH]; [constructor|].
  cbn [distinct]. constructor.
  - rewrite filter_In, String.eqb_refl. cbn. intros [_ H]. discriminate.
  - now apply NoDup_filter.
Qed.

Lemma distinct_snoc (l : list string) (t : string) :
  distinct (l ++ [t])
  = if existsb (String.eqb t) l then distinct l else distinct l ++ [t].
Proof.
  induction l as [|a r IH]; [reflexivity|].
  cbn [app distinct existsb]. rewrite IH.
  destruct (existsb (String.eqb t) r).
  - rewrite orb_true_r. reflexivity.
  - rewrite orb_false_r, filter_app. cbn [filter].
    destruct (String.eqb t a); cbn [negb]; [now rewrite app_nil_r|].
    reflexivity.
Qed.

(** ** The summary of join mode *)

Lemma partition_own (l : list (string * string)) (t : string) :
  JsObject.own (partition_by_text l) t
  = if existsb (String.eqb t) (map snd l)
    then Some (map fst (filter (fun p => String.eqb (snd p) t) l))
    else None.
Proof.
  unfold partition_by_text.
  rewrite (own_map
             (fun t => map fst (filter (fun p => String.eqb (snd p) t) l))).
  destruct (existsb (String.eqb t) (distinct (map snd l))) eqn:E.
  - apply (proj1 (existsb_eqb_in _ _)) in E.
    apply (proj1 (distinct_in _ _)) in E.
    apply (proj2 (existsb_eqb_in _ _)) in E. now rewrite E.
  - apply (proj1 (existsb_eqb_not_in _ _)) in E. rewrite distinct_in in E.
    apply (proj2 (existsb_eqb_not_in _ _)) in E. now rewrite E.
Qed.

(** One turn of the loop over [outputkeys] adds the host to the partition. *)
Lemma group_step_partition (o : JsObject.t string)
    (l : list (string * string)) (host : string) :
  JsObject.inherited (text_of o host) = false ->
  group_step o (Some (partition_by_text l)) host
  = Some (partition_by_text (l ++ [(host, text_of o host)])).
Proof.
  intros Hinh. unfold group_step. set (t := text_of o host) in *.
  rewrite partition_own.
  assert (F : forall k,
             map fst (filter (fun p => String.eqb (snd p) k) (l ++ [(host, t)]))
             = map fst (filter (fun p => String.eqb (snd p) k) l)
               ++ (if String.eqb t k then [host] else [])).
  { intros k. rewrite filter_app, map_app. cbn [filter snd].
    destruct (String.eqb t k); reflexivity. }
  assert (D : distinct (map snd (l ++ [(host, t)]))
              = if existsb (String.eqb t) (map snd l)
                then distinct (map snd l) else distinct (map snd l) ++ [t]).
  { rewrite (map_app snd). cbn [map snd]. apply distinct_snoc. }
  destruct (existsb (String.eqb t) (map snd l)) eqn:E.
  - f_equal. unfold partition_by_text. rewrite D.
    rewrite put_map_old;
      [| apply distinct_nodup
       | apply (proj2 (distinct_in _ _));
         now apply (proj1 (existsb_eqb_in _ _)) ].
    apply map_ext. intros k. rewrite F, (String.eqb_sym t k).
    destruct (String.eqb k t) eqn:Ek.
    + apply String.eqb_eq in Ek. now subst k.
    + now rewrite app_nil_r.
  - rewrite Hinh. f_equal. unfold partition_by_text. rewrite D.
    apply (proj1 (existsb_eqb_not_in _ _)) in E.
    rewrite put_map_new by (now rewrite distinct_in).
    rewrite map_app. cbn [map]. f_equal.
    + apply map_ext_in. intros k Hk. rewrite F.
      destruct (String.eqb t k) eqn:Ek; [|now rewrite app_nil_r].
      apply String.eqb_eq in Ek. subst k.
      apply (proj1 (distinct_in _ _)) in Hk. contradiction.
    + rewrite F, String.eqb_refl. f_equal. f_equal.
      replace (filter (fun p => String.eqb (snd p) t) l) with
        (@nil (string * string)); [reflexivity|].
      symmetry. clear F D. induction l as [|[h' t'] r IH]; [reflexivity|].
      cbn [filter snd]. cbn [map snd] in E.
      destruct (String.eqb t' t) eqn:Et.
      * apply String.eqb_eq in Et. subst. exfalso. apply E. now left.
      * apply IH. intros H. apply E. now right.
Qed.

Lemma group_fold (o : JsObject.t string) (hs : list string) :
  Forall (fun host => JsObject.inherited (text_of o host) = false) hs ->
  forall l,
    fold_left (group_step o) hs (Some (partition_by_text l))
    = Some (partition_by_text
              (l ++ map (fun host => (host, text_of o host)) hs)).
Proof.
  induction 1 as [|host hs Hh Hhs IH]; intros l.
  - cbn. now rewrite app_nil_r.
  - cbn [fold_left map]. rewrite group_step_partition by exact Hh.
    rewrite IH, <- app_assoc. reflexivity.
Qed.

(** Unless a text names an inherited property, the loop of [q.drain]
    computes the partition of the hosts by their text. *)
Lemma group_by_output_partition (o : JsObject.t string) :
  Forall (fun p => JsObject.inherited (snd p) = false) (accumulated o) ->
  group_by_output o = Some (partition_by_text (accumulated o)).
Proof.
  intros H. unfold group_by_output.
  change (@JsObject.empty (list string)) with (partition_by_text []).
  rewrite group_fold; [reflexivity|].
  unfold accumulated in H. rewrite Forall_map in H. exact H.
Qed.

Lemma partition_keys (l : list (string * string)) :
  map fst (partition_by_text l) = distinct (map snd l).
Proof.
  unfold partition_by_text. rewrite map_map. cbn [fst]. apply map_id.
Qed.

(** C2 (as the script has it).  In join mode the drain handler partitions
    the hosts of [output], taken in the order of [Object.keys(output)], by
    identical accumulated text, the empty text being a group of its own that
    is printed as "no output"; it prints the number of groups and then, for
    each group, the list of its hosts and the shared text once.  The groups
    come in the order of [Object.keys(diff)]: first the texts that are array
    indices, by value, then the other texts in the order in which they are
    first met; when no text is an array index this is the order in which
    the texts are first met.  All this unless a text is the name of an
    inherited property, for which the handler throws. *)
Theorem join_summary (c : config) (s : state) :
  join c = true -> group c = false ->
  Forall (fun p => JsObject.inherited (snd p) = false)
    (accumulated (output s)) ->
  let acc := accumulated (output s) in
  let texts := distinct (map snd acc) in
  let members t := map fst (filter (fun p => String.eqb (snd p) t) acc) in
  drain c s
  = (Exited (exitcode s) s,
     console_log (Str (nl ++ nl ++ "finished with %s unique result%s" ++ nl))
       [Paint magenta (Num (len texts));
        Str (if len texts =? 1 then "" else "s")]
     :: flat_map (fun t => group_lines (len acc) (t, members t))
          (JsObject.order texts)
     ++ vlog c "finished: %s (%s ms)" [Clock; Paint magenta Clock])
  /\ (Forall (fun p => JsObject.is_index (snd p) = false) acc ->
      JsObject.order texts = texts).
Proof.
  intros Hj Hg Htexts acc texts members. split.
  - unfold drain. rewrite Hj, Hg. cbn [negb andb].
    rewrite group_by_output_partition by exact Htexts.
    fold acc.
    assert (M : len (JsObject.keys (output s)) = len acc)
      by (unfold len, acc, accumulated; now rewrite length_map).
    rewrite M. unfold summary, JsObject.keys. rewrite partition_keys.
    fold texts.
    assert (L : len (JsObject.order texts) = len texts)
      by (unfold len; now rewrite order_length).
    rewrite L. f_equal. cbn [app]. f_equal. f_equal.
    rewrite !flat_map_concat_map. f_equal. apply map_ext_in.
    intros t Ht. apply order_in in Ht. unfold print_group, group_lines.
    rewrite partition_own. cbn [fst snd].
    apply (proj1 (distinct_in _ _)) in Ht.
    apply (proj2 (existsb_eqb_in _ _)) in Ht. rewrite Ht. reflexivity.
  - intros Hidx. apply order_named. apply Forall_forall. intros t Ht.
    apply (proj1 (distinct_in _ _)) in Ht.
    apply in_map_iff in Ht as ([h t'] & <- & Hin).
    rewrite Forall_forall in Hidx. exact (Hidx _ Hin).
Qed.

Lemma join_summary_witness :
  drain uname_join three_hosts
  = (Exited 0 three_hosts,
     [console_log (Str (nl ++ nl ++ "finished with %s unique result%s" ++ nl))
        [Paint magenta (Num 2); Str "s"];
      console_log (Paint grey (Str "hosts (%d/%d): %s"))
        [Num 2; Num 3; Paint cyan (Str "A B")];
      console_log (Str "x") [];
      console_log (Paint grey (Str "hosts (%d/%d): %s"))
        [Num 1; Num 3; Paint cyan (Str "C")];
      console_log (Str "y") []]).
Proof.
  apply (join_summary uname_join three_hosts); [reflexivity | reflexivity |].
  repeat constructor.
Defined.

(** C2 fails as stated: host [a] delivers "x", then host [b] delivers "7".
    The text "7" is an array index, so [Object.keys(diff)] lists it first
    and its group is printed before the group of "x", which was met first. *)
Lemma index_text_is_printed_first :
  map fst (partition_by_text (accumulated [("a", "x"); ("b", "7")]))
  = ["x"; "7"]
  /\ option_map JsObject.keys (group_by_output [("a", "x"); ("b", "7")])
     = Some ["7"; "x"]
  /\ run uname_join ["a"; "b"] plenty (init ["a"; "b"])
       [Tick; Tick; Data 0 Stdout "x"; Data 1 Stdout "7";
        Close 0 (Some 0%N); Close 1 (Some 0%N)]
     = Some
         (Exited 0 (State [] 0 0 [] 2 2 0 None [("a", "x"); ("b", "7")]),
          [spawn (VStr "ssh") [VStr "a"; VStr "uname"];
           spawn (VStr "ssh") [VStr "b"; VStr "uname"];
           stdout_write
             (Format (Str "[%s] finished %s/%s%s")
                [Paint cyan (Str "sshp"); Paint magenta (Num 1);
                 Paint magenta (Num 2); Str cr]);
           stdout_write
             (Format (Str "[%s] finished %s/%s%s")
                [Paint cyan (Str "sshp"); Paint magenta (Num 2);
                 Paint magenta (Num 2); Str cr]);
           console_log
             (Str (nl ++ nl ++ "finished with %s unique result%s" ++ nl))
             [Paint magenta (Num 2); Str "s"];
           console_log (Paint grey (Str "hosts (%d/%d): %s"))
             [Num 1; Num 2; Paint cyan (Str "b")];
           console_log (Str "7") [];
           console_log (Paint grey (Str "hosts (%d/%d): %s"))
             [Num 1; Num 2; Paint cyan (Str "a")];
           console_log (Str "x") []]).
Proof. repeat split. Qed.

(** A text that names an inherited property ends the summary before it
    prints anything. *)
Example inherited_text_throws :
  run uname_join ["a"] plenty (init ["a"])
    [Tick; Data 0 Stdout "constructor"; Close 0 (Some 0%N)]
  = Some (Crashed,
          [spawn (VStr "ssh") [VStr "a"; VStr "uname"];
           stdout_write
             (Format (Str "[%s] finished %s/%s%s")
                [Paint cyan (Str "sshp"); Paint magenta (Num 1);
                 Paint magenta (Num 1); Str cr])]).
Proof. reflexivity. Qed.

(** ** Group mode *)

(** C3 (as the script has it).  In group mode without the silent flag, the
    data handler writes the header of the chunk's host before the chunk
    exactly when the host differs from [lasthost], the one variable shared
    by all hosts and both streams, and leaves [lasthost] at the chunk's
    host.  So two chunks in a row from a host that was not the last to
    write give one header and then the two chunks, and a chunk from another
    host gives a new header. *)
Theorem group_header_on_host_change (c : config) (s : state)
    (host : string) (k : stream) (d : string) :
  group c = true -> silent c = false ->
  (lasthost s = Some host -> snd (on_data c s host k d) = [chunk k d])
  /\ (lasthost s <> Some host ->
      snd (on_data c s host k d) = [header host; chunk k d])
  /\ lasthost (fst (on_data c s host k d)) = Some host
  /\ (forall k' d',
        lasthost s <> Some host ->
        snd (on_data c s host k d)
        ++ snd (on_data c (fst (on_data c s host k d)) host k' d')
        = [header host; chunk k d; chunk k' d'])
  /\ (forall host' k' d',
        host' <> host ->
        snd (on_data c (fst (on_data c s host k d)) host' k' d')
        = [header host'; chunk k' d']).
Proof.
  intros Hg Hs.
  assert (A : forall s0 h k0 d0,
             lasthost s0 = Some h ->
             on_data c s0 h k0 d0 = (s0, [chunk k0 d0])).
  { intros s0 h k0 d0 E. unfold on_data. rewrite Hs, Hg, E.
    rewrite String.eqb_refl. cbn [negb app]. destruct s0. cbn in *.
    now subst. }
  assert (B : forall s0 h k0 d0,
             lasthost s0 <> Some h ->
             on_data c s0 h k0 d0
             = (State (tasks s0) (workers s0) (ticks s0) (running s0)
                  (spawned s0) (i s0) (exitcode s0) (Some h) (output s0),
                [header h; chunk k0 d0])).
  { intros s0 h k0 d0 E. unfold on_data. rewrite Hs, Hg.
    destruct (lasthost s0) as [h0|]; [|reflexivity].
    destruct (String.eqb h h0) eqn:Eh; [|reflexivity].
    apply String.eqb_eq in Eh. subst. congruence. }
  assert (L : lasthost (fst (on_data c s host k d)) = Some host).
  { destruct (lasthost s) as [h0|] eqn:E.
    - destruct (String.eqb host h0) eqn:Eh.
      + apply String.eqb_eq in Eh. subst. now rewrite A.
      + rewrite B; [reflexivity|]. apply String.eqb_neq in Eh. congruence.
    - rewrite B; [reflexivity | congruence]. }
  split; [|split; [|split; [|split]]].
  - intros E. now rewrite A.
  - intros E. now rewrite B.
  - exact L.
  - intros k' d' E. rewrite (A _ _ _ _ L). now rewrite B.
  - intros host' k' d' Hne. rewrite B; [reflexivity|]. rewrite L. congruence.
Qed.

Lemma group_header_on_host_change_witness :
  snd (on_data uname_group (init ["a"; "b"]) "a" Stdout "x")
  ++ snd (on_data uname_group
            (fst (on_data uname_group (init ["a"; "b"]) "a" Stdout "x"))
            "a" Stderr "y")
  = [header "a"; chunk Stdout "x"; chunk Stderr "y"]
  /\ snd (on_data uname_group
            (fst (on_data uname_group (init ["a"; "b"]) "a" Stdout "x"))
            "b" Stdout "z")
     = [header "b"; chunk Stdout "z"].
Proof.
  destruct (group_header_on_host_change uname_group (init ["a"; "b"]) "a"
              Stdout "x" eq_refl eq_refl) as (_ & _ & _ & H2 & H3).
  split.
  - apply H2. discriminate.
  - apply H3. discriminate.
Defined.

(** C3 fails as stated: in group mode with the silent flag the chunk of a
    host that differs from [lasthost] gets no header, and [lasthost] stays
    as it was. *)
Lemma silent_group_mode_has_no_header :
  group uname_group_silent = true
  /\ lasthost (init ["a"]) = None
  /\ on_data uname_group_silent (init ["a"]) "a" Stdout "x" = (init ["a"], [])
  /\ run uname_group_silent ["a"] plenty (init ["a"]) [Tick; Data 0 Stdout "x"]
     = Some (Continue (State [] 1 0 [(0%nat, "a")] 1 0 0 None [("a", "")]),
             [spawn (VStr "ssh") [VStr "a"; VStr "uname"]]).
Proof. repeat split. Qed.

(** ** The silent flag *)

Lemma silent_on_data (c : config) (s : state) host k d :
  silent c = true -> on_data c s host k d = (s, []).
Proof. intros H. unfold on_data. now rewrite H. Qed.

Lemma header_or_chunk_grey (t : text) (a : list text) :
  is_header (console_log (Paint grey t) a)
  || is_chunk (console_log (Paint grey t) a) = false.
Proof. destruct a as [|x [|y l]]; reflexivity. Qed.

Lemma silent_step (c : config) (hosts : list string) (stack : nat)
    (s : state) ev o out :
  silent c = true -> step c hosts stack s ev = Some (o, out) ->
  free_of (fun e => is_header e || is_chunk e) out.
Proof.
  intros Hs H.
  destruct ev as [|pid k d|pid code|pid|arg]; cbn [step] in H.
  - destruct (ticks s); [discriminate|].
    apply some_pair_snd in H. rewrite <- H.
    apply q_process_quiet;
      solve [reflexivity | exact header_or_chunk_grey].
  - destruct (child pid (running s)) as [host|]; [|discriminate].
    rewrite silent_on_data in H by exact Hs. now inversion H.
  - destruct (child pid (running s)) as [host|]; [|discriminate].
    apply some_pair_snd in H. rewrite <- H.
    apply on_close_quiet;
      solve [reflexivity | exact header_or_chunk_grey].
  - destruct (child pid (running s)); [|discriminate]. now inversion H.
  - inversion H; subst. reflexivity.
Qed.

(** C10.  With the silent flag the data handlers return at once: whatever
    the mode, the stream and the chunk, nothing is written and no variable
    changes, [lasthost] included.  So in a silent run, group mode or not,
    no header line and no raw chunk is ever written; and in group mode a
    chunk from a host other than [lasthost] leaves no header behind. *)
Theorem silent_handlers_write_nothing (c : config) :
  silent c = true ->
  (forall s host k d, on_data c s host k d = (s, []))
  /\ (forall hosts stack s pid k d o out,
        step c hosts stack s (Data pid k d) = Some (o, out) ->
        o = Continue s /\ out = [])
  /\ (forall hosts stack evs o out,
        run c hosts stack (init hosts) evs = Some (o, out) ->
        forall host k d, ~ In (header host) out /\ ~ In (chunk k d) out).
Proof.
  intros Hs. split; [|split].
  - intros. now apply silent_on_data.
  - intros hosts stack s pid k d o out H. cbn [step] in H.
    destruct (child pid (running s)) as [host|]; [|discriminate].
    rewrite silent_on_data in H by exact Hs. inversion H. now split.
  - intros hosts stack evs o out Hrun host k d.
    destruct (run_outcome c hosts stack (fun _ => True)
                (fun e => negb (is_header e || is_chunk e)))
      with (evs := evs) (s := init hosts) (o := o) (out := out)
      as [Hq _]; auto.
    { intros s ev o1 out1 _ H1. split; [|exact I].
      exact (silent_step c hosts stack s ev o1 out1 Hs H1). }
    split.
    + apply (forallb_not_in (fun e => is_header e || is_chunk e) out);
        [exact Hq | reflexivity].
    + apply (forallb_not_in (fun e => is_header e || is_chunk e) out);
        [exact Hq | destruct k; reflexivity].
Qed.

Lemma silent_handlers_write_nothing_witness :
  on_data uname_group_silent (init ["a"]) "a" Stdout "x" = (init ["a"], []).
Proof.
  apply (silent_handlers_write_nothing uname_group_silent eq_refl).
Defined.

(** ** Failures of a job *)

(** C5 (as the script has it).  The ['close'] of a child, whatever its exit
    status, never stops the run unless it is the last one: the count of
    finished jobs goes up by one, the status is added to [exitcode], and
    the queue goes on in the same turn, starting the next pending host in
    the slot that has become free.  (Nothing is said here of a child that
    cannot be spawned.) *)
Theorem failed_job_is_not_fatal (c : config) (hosts : list string) (stack : nat)
    (s : state) (pid : nat) (host : string) (code : option N) :
  reachable c hosts stack s -> child pid (running s) = Some host ->
  i s + 1 <> len hosts ->
  exists s' out,
    step c hosts stack s (Close pid code) = Some (Continue s', out)
    /\ i s' = i s + 1
    /\ exitcode s' = exitcode s + to_number code
    /\ forall h rest,
         tasks s = h :: rest ->
         tasks s' = rest
         /\ running s' = remove_child pid (running s) ++ [(spawned s, h)]
         /\ In (spawn (VStr "ssh") (tl (cmd c h))) out.
Proof.
  intros Hr Hch Hlast. pose proof (reachable_inv c hosts stack s Hr) as Hinv.
  destruct (inv_alive _ _ _ _ _ Hinv Hch) as (Hdry & Hfree & Hone).
  destruct (step c hosts stack s (Close pid code)) as [[o out]|] eqn:Hs;
    [|cbn [step] in Hs; rewrite Hch in Hs; discriminate].
  pose proof (close_ends c hosts stack s pid code o out Hinv Hs) as He.
  destruct o as [s'| |];
    try (exfalso; apply Hlast; now apply (proj1 He)).
  exists s', out. split; [reflexivity|].
  pose proof (step_count c hosts stack s _ _ _ s' Hs eq_refl) as Hc.
  pose proof (step_exitcode c hosts stack s _ _ _ _ Hs eq_refl) as Hx.
  cbn [counted contribution] in Hc, Hx.
  split; [exact Hc|]. split; [exact Hx|].
  intros h rest Et. cbn [step] in Hs. rewrite Hch in Hs.
  pose proof (some_pair_fst _ _ _ Hs) as Hf.
  pose proof (some_pair_snd _ _ _ Hs) as Hout. clear Hs.
  unfold on_close, after, next in Hf, Hout. cbn [fst snd] in Hf, Hout.
  cbn [tasks workers ticks running spawned i exitcode lasthost output]
    in Hf, Hout.
  destruct (len (tasks s) + (workers s - 1) =? 0) eqn:Ez.
  { exfalso.
    match type of Hf with fst (drain c ?x) = _ =>
      destruct (drain_outcome c x) as [E|E] end;
      rewrite E in Hf; discriminate. }
  rewrite (q_process_spawns c _ _ _ Hdry), Et in Hf, Hout.
  cbn [workers] in Hf, Hout. rewrite Hfree in Hf, Hout.
  cbn [fst snd] in Hf, Hout. injection Hf as Hs'. subst s' out.
  cbn [tasks running spawned]. repeat split.
  apply in_or_app. right. apply in_or_app. right. left. reflexivity.
Qed.

Lemma failed_job_is_not_fatal_witness :
  exists s' out,
    step uname_one_at_a_time ["a"; "b"] plenty
      (State ["b"] 1 1 [(0%nat, "a")] 1 0 0 None [("a", ""); ("b", "")])
      (Close 0 (Some 255%N))
    = Some (Continue s', out)
    /\ i s' = 0 + 1
    /\ exitcode s' = 0 + 255
    /\ forall h rest,
         ["b"] = h :: rest ->
         tasks s' = rest
         /\ running s' = [] ++ [(1%nat, h)]
         /\ In (spawn (VStr "ssh") (tl (cmd uname_one_at_a_time h))) out.
Proof.
  apply (failed_job_is_not_fatal uname_one_at_a_time ["a"; "b"] plenty
           (State ["b"] 1 1 [(0%nat, "a")] 1 0 0 None [("a", ""); ("b", "")])
           0%nat "a" (Some 255%N)).
  - apply (reach_step _ _ _ (init ["a"; "b"]) Tick _
             [spawn (VStr "ssh") [VStr "a"; VStr "uname"]]);
      [apply reach_init | reflexivity].
  - reflexivity.
  - cbn. lia.
Defined.

(** C5 fails as stated: with two hosts and one job at a time, the child of
    the first host cannot be spawned; its ['error'] event has no listener
    and is thrown, the script dies and the second host is never started. *)
Lemma spawn_failure_is_fatal :
  run uname_one_at_a_time ["a"; "b"] plenty (init ["a"; "b"]) [Tick; Error 0]
  = Some (Crashed, [spawn (VStr "ssh") [VStr "a"; VStr "uname"]]).
Proof. reflexivity. Qed.

(** ** No hosts *)

(** C9 (as the script has it).  With an empty list of hosts nothing is
    pushed on the queue, so no [q.process] is scheduled and no child ever
    exists: whatever happens, the script stays in its initial state.  It
    never reaches the drain handler and never calls [process.exit]; its
    aggregate exit status stays 0 and nothing is spawned. *)
Theorem no_hosts_never_drains (c : config) (stack : nat) (evs : list event)
    (o : outcome) (out : list effect) :
  run c [] stack (init []) evs = Some (o, out) ->
  o = Continue (init []) /\ exitcode (init []) = 0
  /\ free_of is_spawn out.
Proof.
  intros Hrun.
  destruct (run_outcome c [] stack (fun o => o = Continue (init []))
              (fun e => negb (is_spawn e)))
    with (evs := evs) (s := init []) (o := o) (out := out) as [Hq Ho]; auto.
  intros s ev o1 out1 E H1. inversion E; subst s.
  destruct ev as [|pid k d|pid code|pid|arg]; cbn in H1; try discriminate.
  inversion H1; subst. split; reflexivity.
Qed.

Lemma no_hosts_never_drains_witness :
  Continue (init []) = Continue (init []) /\ exitcode (init []) = 0
  /\ free_of is_spawn
       [progress [] (init []) true; progress [] (init []) false].
Proof.
  apply (no_hosts_never_drains uname plenty [Sigusr1 true; Sigusr1 false]).
  reflexivity.
Defined.

(** C9 fails as stated: with no hosts the script starts, and then no
    scheduled [q.process], no chunk, no ['close'] and no ['error'] can
    occur; SIGUSR1 prints the progress and leaves the state as it is.  No
    event leads to the drain handler. *)
Lemma no_hosts_no_event_drains :
  boot uname [] = (Started (init []), [])
  /\ step uname [] plenty (init []) Tick = None
  /\ (forall pid k d, step uname [] plenty (init []) (Data pid k d) = None)
  /\ (forall pid code, step uname [] plenty (init []) (Close pid code) = None)
  /\ (forall pid, step uname [] plenty (init []) (Error pid) = None)
  /\ (forall arg,
        step uname [] plenty (init []) (Sigusr1 arg)
        = Some (Continue (init []), [progress [] (init []) arg])).
Proof. repeat split. Qed.

(** C8 fails as stated: in a dry run with one host the first [q.process]
    goes through the host and enters the drain handler while the count of
    finished jobs is still 0, below the number of hosts; and with no hosts
    the count equals the number of hosts from the start, yet no
    [q.process] is scheduled that could reach the drain handler. *)
Lemma count_and_drain_disagree :
  option_map fst (run uname_dry ["h1"] plenty (init ["h1"]) [Tick])
  = Some (Exited 0 (State [] 0 0 [] 0 0 0 None [("h1", "")]))
  /\ i (State [] 0 0 [] 0 0 0 None [("h1", "")]) = 0
  /\ len ["h1"] = 1
  /\ i (init []) = len (@nil string)
  /\ step uname [] plenty (init []) Tick = None.
Proof. repeat split. Qed.

Lemma completed_count_witness :
  reachable uname ["a"] plenty
    (State [] 1 0 [(0%nat, "a")] 1 0 0 None [("a", "")])
  /\ 0 <= 0 <= len ["a"]
  /\ (forall o out,
        step uname ["a"] plenty
          (State [] 1 0 [(0%nat, "a")] 1 0 0 None [("a", "")])
          (Close 0 (Some 1%N)) = Some (o, out) ->
        ended o = true <-> 0 + 1 = len ["a"]).
Proof.
  assert (R : reachable uname ["a"] plenty
                (State [] 1 0 [(0%nat, "a")] 1 0 0 None [("a", "")])).
  { apply (reach_step _ _ _ (init ["a"]) Tick _
             [spawn (VStr "ssh") [VStr "a"; VStr "uname"]]);
      [apply reach_init | reflexivity]. }
  destruct (completed_count uname ["a"] plenty _ R) as (H1 & _ & _ & H4).
  split; [exact R|]. split; [exact H1|].
  intros o out Hs. destruct (H4 eq_refl) as (_ & Hc & _).
  exact (proj1 (Hc _ _ _ _ Hs)).
Defined.

(** ** Dry runs *)

Lemma own_in {V} (o : JsObject.t V) (k : string) :
  In k (map fst o) -> exists v, JsObject.own o k = Some v /\ In (k, v) o.
Proof.
  induction o as [|[k' v'] r IH]; [contradiction|].
  cbn [map fst In JsObject.own]. intros H.
  destruct (String.eqb k' k) eqn:E.
  - apply String.eqb_eq in E. subst. exists v'. split; [reflexivity | now left].
  - destruct H as [H|H]; [subst; rewrite String.eqb_refl in E; discriminate|].
    destruct (IH H) as (v & Hv & Hin). exists v. split; [exact Hv | now right].
Qed.

Lemma put_values {V} (o : JsObject.t V) (k : string) (v : V) :
  Forall (fun p => snd p = v) o ->
  Forall (fun p => snd p = v) (JsObject.put o k v).
Proof.
  induction 1 as [|[k' v'] r Hp Hr IH]; cbn [JsObject.put].
  - repeat constructor.
  - destruct (String.eqb k' k); constructor; auto.
Qed.

(** Before any chunk arrives every host of [output] has the empty text. *)
Lemma init_output_texts (hosts : list string) :
  Forall (fun p => snd p = "") (accumulated (init_output hosts)).
Proof.
  assert (A : forall o : JsObject.t string,
             Forall (fun p => snd p = "") o ->
             Forall (fun p => snd p = "")
               (fold_left (fun o host => assign o host "") hosts o)).
  { induction hosts as [|h r IH]; intros o Ho; [exact Ho|].
    cbn [fold_left]. apply IH. unfold assign.
    destruct (String.eqb h "__proto__"); [exact Ho | now apply put_values]. }
  specialize (A JsObject.empty (Forall_nil _)). fold (init_output hosts) in A.
  unfold accumulated. apply Forall_map, Forall_forall. intros k Hk. cbn [snd].
  apply keys_in, own_in in Hk as (v & Hv & Hin). unfold text_of.
  rewrite Hv. rewrite Forall_forall in A. exact (A _ Hin).
Qed.

Lemma dry_drain (c : config) (hosts : list string) (s : state) :
  output s = init_output hosts -> fst (drain c s) = Exited (exitcode s) s.
Proof.
  intros Ho. unfold drain. destruct (join c && negb (group c)); [|reflexivity].
  rewrite group_by_output_partition; [reflexivity|].
  rewrite Ho. eapply Forall_impl; [|apply init_output_texts].
  intros p Hp. now rewrite Hp.
Qed.

(** A dry run comes from [-n], which turns debugging on as well. *)
Lemma getopt_loop_dry (opts : list opt) :
  forall c0 c,
    (dryrun c0 = true -> debug c0 = true) ->
    getopt_loop c0 opts = Options c -> dryrun c = true -> debug c = true.
Proof.
  induction opts as [|o rest IH]; intros c0 c H0 Hp.
  - cbn in Hp. inversion Hp; subst. exact H0.
  - destruct o; cbn [getopt_loop] in Hp; try discriminate;
      (eapply IH; [|exact Hp]); cbn; auto.
Qed.

Lemma dry_step (c : config) (hosts : list string) (stack : nat)
    (s : state) ev o out :
  dryrun c = true -> inv c hosts s ->
  step c hosts stack s ev = Some (o, out) ->
  free_of is_spawn out
  /\ match o with
     | Continue s' => inv c hosts s'
     | Exited code _ => code = 0
     | Crashed =>
         below 0 (maxjobs c) = true /\ (S stack < length hosts)%nat
     end.
Proof.
  intros Hdry Hinv H. pose proof Hinv as (Hw & Hmax & Hi & Hmode).
  rewrite Hdry in Hmode. destruct Hmode as (Hi0 & Hr & He & Ho & Ht).
  rewrite Hr in Hw. change (len (@nil (nat * string))) with 0 in Hw.
  destruct ev as [|pid k d|pid code|pid|arg]; cbn [step] in H;
    try (rewrite Hr in H; discriminate).
  - destruct (ticks s) as [|n]; [discriminate|].
    pose proof (some_pair_fst _ _ _ H) as Hf.
    pose proof (some_pair_snd _ _ _ H) as Hout. split.
    + rewrite <- Hout. apply q_process_dry_quiet; auto.
    + destruct o as [s'|code s'|].
      * eapply inv_q_process; [apply (inv_ticks c hosts s n Hinv)|].
        cbn [tasks]. rewrite <- Hf, <- Hout. apply surjective_pairing.
      * apply (f_equal final_exitcode) in Hf. cbn [final_exitcode] in Hf.
        apply q_process_exitcode in Hf. cbn in Hf. congruence.
      * destruct (below 0 (maxjobs c)) eqn:Em.
        -- split; [reflexivity|].
           destruct (Nat.le_gt_cases (length hosts) (S stack)) as [L|L];
             [exfalso | exact L].
           rewrite Ht in Hf. destruct hosts as [|h r] eqn:Eh;
             [cbn in Hf; discriminate|].
           rewrite (q_process_dry c (h :: r) Hdry Em) in Hf
             by (congruence || assumption).
           unfold after in Hf. cbn [fst] in Hf.
           rewrite (dry_drain c (h :: r)) in Hf by exact Ho.
           discriminate.
        -- rewrite q_process_full in Hf by (cbn [workers]; now rewrite Hw).
           discriminate.
  - inversion H; subst. split; [reflexivity | exact Hinv].
Qed.

Lemma map_invocation (c : config) (l : list string) :
  debug c = true ->
  flat_map
    (fun host => vlog c "[%s] %s"
                   [Paint yellow (Str host); Inspect (cmd c host)]) l
  = map (invocation c) l.
Proof.
  intros Hd. unfold vlog. rewrite Hd.
  induction l as [|a l IH]; [reflexivity|].
  cbn [flat_map map app]. now rewrite IH.
Qed.

(** The first [q.process] call of a dry run on a list too long for the
    stack. *)
Lemma dry_overflow (c : config) (hosts : list string) (stack : nat) :
  dryrun c = true -> debug c = true -> below 0 (maxjobs c) = true ->
  (S stack < length hosts)%nat ->
  step c hosts stack (init hosts) Tick
  = Some (Crashed, map (invocation c) (firstn (S stack) hosts)).
Proof.
  intros Hdry Hdbg Hm Hlen.
  cbn [step init ticks tasks workers running spawned i exitcode lasthost
         output].
  destruct (length hosts) as [|n] eqn:El; [lia|].
  rewrite (q_process_overflow c hosts Hdry Hm) by (reflexivity || lia).
  now rewrite (map_invocation c _ Hdbg).
Qed.

Lemma firstn_repeat {A} (x : A) (n : nat) :
  firstn n (repeat x (S n)) = repeat x n.
Proof.
  induction n as [|n IH]; [reflexivity|].
  change (repeat x (S (S n))) with (x :: repeat x (S n)).
  cbn [firstn]. now rewrite IH.
Qed.

(** C7 (as the script has it).  A dry run is what [-n] asks for, and [-n]
    turns debugging on.  The argument vector of a host is [ssh], the options
    for ssh, the host and the remote command.  In a dry run nothing is ever
    spawned, no child is ever alive, and the aggregate exit status is 0 all
    along.  When the cap admits a job, there is at least one host and the
    stack holds one nested call for each host after the first, the first
    [q.process] call prints the argument vector of every host, in order, as
    a debug line, completes every job in that same call and leaves through
    the drain handler with [process.exit(0)]; when the list is longer than
    the stack allows, the call dies after the debug lines of the hosts it
    had room for, and a dry run dies in no other way. *)
Theorem dry_run_starts_nothing (opts : list opt)
    (operands hosts : list string) (stack : nat) (c : config) :
  parse opts operands = Options c -> dryrun c = true ->
  debug c = true
  /\ (forall host,
        cmd c host
        = VStr "ssh"
          :: (if quiet c then [VStr "-q"] else [])
          ++ match port c with
             | Some p => if truthy p then [VStr "-p"; VNum p] else []
             | None => []
             end
          ++ match login c with
             | Some l => if String.eqb l "" then [] else [VStr "-l"; VStr l]
             | None => []
             end
          ++ (if nostrict c then [VStr "-o"; VStr "StrictHostKeyChecking=no"]
              else [])
          ++ VStr host :: map VStr operands)
  /\ (forall evs o out,
        run c hosts stack (init hosts) evs = Some (o, out) ->
        free_of is_spawn out
        /\ match o with
           | Continue s => running s = [] /\ exitcode s = 0 /\ i s = 0
           | Exited code _ => code = 0
           | Crashed =>
               below 0 (maxjobs c) = true /\ (S stack < length hosts)%nat
           end)
  /\ (below 0 (maxjobs c) = true -> hosts <> [] ->
      (length hosts <= S stack)%nat ->
      exists s rest,
        step c hosts stack (init hosts) Tick
        = Some (Exited 0 s, map (invocation c) hosts ++ rest)
        /\ tasks s = [] /\ running s = [])
  /\ (below 0 (maxjobs c) = true -> (S stack < length hosts)%nat ->
      step c hosts stack (init hosts) Tick
      = Some (Crashed, map (invocation c) (firstn (S stack) hosts))).
Proof.
  intros Hp Hdry.
  assert (Hdbg : debug c = true).
  { apply (getopt_loop_dry opts (defaults operands) c); auto;
      cbn; discriminate. }
  assert (Hcmd : forall c0, getopt_loop c0 opts = Options c ->
                            command c = command c0).
  { clear. induction opts as [|o rest IH]; intros c0 H.
    - cbn in H. now inversion H.
    - destruct o; cbn [getopt_loop] in H; try discriminate;
        apply IH in H; exact H. }
  specialize (Hcmd _ Hp). cbn [defaults command] in Hcmd.
  split; [exact Hdbg|]. split; [|split; [|split]].
  - intros host. unfold cmd, sshcommand. rewrite Hcmd.
    cbn [app]. rewrite <- !app_assoc. reflexivity.
  - intros evs o out Hrun.
    pose (Q := fun o : outcome =>
                 match o with
                 | Continue s' => inv c hosts s'
                 | Exited code _ => code = 0
                 | Crashed =>
                     below 0 (maxjobs c) = true
                     /\ (S stack < length hosts)%nat
                 end).
    destruct (run_outcome c hosts stack Q (fun e => negb (is_spawn e)))
      with (evs := evs) (s := init hosts) (o := o) (out := out) as [Hq Ho].
    + intros s ev o1 out1 Hs H1.
      exact (dry_step c hosts stack s ev o1 out1 Hdry Hs H1).
    + apply inv_init.
    + exact Hrun.
    + split; [exact Hq|]. destruct o as [s|code s|]; cbn in Ho; auto.
      destruct Ho as (_ & _ & _ & Hmode). rewrite Hdry in Hmode. tauto.
  - intros Hm Hne Hlen.
    destruct hosts as [|h r] eqn:Eh; [congruence|]. rewrite <- Eh in *.
    assert (Hl : (0 < length hosts)%nat) by (rewrite Eh; cbn; lia).
    cbn [step init ticks tasks workers running spawned i exitcode lasthost
           output].
    destruct (length hosts) as [|n] eqn:El; [lia|].
    rewrite (q_process_dry c hosts Hdry Hm)
      by (congruence || reflexivity || lia).
    unfold after.
    cbn [tasks workers ticks running spawned i exitcode lasthost output].
    match goal with |- context [drain c ?x] =>
      pose proof (dry_drain c hosts x eq_refl) as Hd;
      destruct (drain c x) as [o1 rest] eqn:Ed end.
    cbn [fst snd] in *. subst o1. cbn [exitcode].
    eexists. exists rest. rewrite (map_invocation c hosts Hdbg).
    split; [reflexivity|]. split; reflexivity.
  - intros Hm Hlen. now apply dry_overflow.
Qed.

Lemma dry_run_starts_nothing_witness :
  cmd (set_maxjobs (int 1)
         (set_nostrict
            (set_login "root"
               (set_port (int 2222)
                  (set_quiet
                     (set_debug (set_dryrun (defaults ["uname"; "-v"]))))))))
    "h1"
  = [VStr "ssh"; VStr "-q"; VStr "-p"; VNum (int 2222); VStr "-l";
     VStr "root"; VStr "-o"; VStr "StrictHostKeyChecking=no"; VStr "h1";
     VStr "uname"; VStr "-v"]
  /\ exists s rest,
       step (set_maxjobs (int 1) uname_dry) ["h1"; "h2"] plenty
         (init ["h1"; "h2"]) Tick
       = Some
           (Exited 0 s,
            [console_log (Str "[%s] %s")
               [Paint cyan (Str "sshp");
                Format (Str "[%s] %s")
                  [Paint yellow (Str "h1");
                   Inspect [VStr "ssh"; VStr "h1"; VStr "uname"]]];
             console_log (Str "[%s] %s")
               [Paint cyan (Str "sshp");
                Format (Str "[%s] %s")
                  [Paint yellow (Str "h2");
                   Inspect [VStr "ssh"; VStr "h2"; VStr "uname"]]]]
            ++ rest)
       /\ tasks s = [] /\ running s = [].
Proof.
  split.
  - exact (proj1 (proj2 (dry_run_starts_nothing
                           [On; Oq; Op (int 2222); Ol "root"; ON; Om (int 1)]
                           ["uname"; "-v"] ["h1"; "h2"] plenty _
                           eq_refl eq_refl)) "h1").
  - destruct (dry_run_starts_nothing [On; Om (int 1)] ["uname"] ["h1"; "h2"]
                plenty (set_maxjobs (int 1) uname_dry) eq_refl eq_refl)
      as (_ & _ & _ & H3 & _).
    apply H3; [reflexivity | discriminate | unfold plenty; cbn [length]; lia].
Defined.

(** C7 fails as stated: with a cap of 0 a dry run starts and then reports
    no argument vector and never leaves, whatever [q.process] calls run;
    and whatever room the stack has, on a list of two hosts more than that
    the first [q.process] call dies before it has reported every host and
    before it reaches [process.exit]. *)
Lemma dry_run_can_report_nothing :
  validate (set_maxjobs (int 0) uname_dry) = None
  /\ run (set_maxjobs (int 0) uname_dry) ["h1"; "h2"] plenty
       (init ["h1"; "h2"]) [Tick; Tick]
     = Some
         (Continue (State ["h1"; "h2"] 0 0 [] 0 0 0 None
                      [("h1", ""); ("h2", "")]), [])
  /\ (forall stack,
        run uname_dry (repeat "h" (S (S stack))) stack
          (init (repeat "h" (S (S stack)))) [Tick]
        = Some (Crashed,
                map (invocation uname_dry) (repeat "h" (S stack)))).
Proof.
  split; [reflexivity|]. split; [reflexivity|].
  intros stack. cbn [run].
  rewrite (dry_overflow uname_dry (repeat "h" (S (S stack))) stack)
    by (reflexivity || (rewrite repeat_length; lia)).
  now rewrite firstn_repeat.
Qed.

(** * Further properties *)

(** ** The list of hosts *)

Lemma split_newline_nonempty (s : string) : split_newline s <> [].
Proof.
  induction s as [|ch r IH]; cbn [split_newline]; [discriminate|].
  destruct (Ascii.eqb ch "010"%char); [discriminate|].
  destruct (split_newline r); discriminate.
Qed.

Lemma split_newline_pieces (s : string) :
  Forall (fun x => has_newline x = false) (split_newline s).
Proof.
  induction s as [|ch r IH]; cbn [split_newline].
  - repeat constructor.
  - destruct (Ascii.eqb ch "010"%char) eqn:E.
    + constructor; [reflexivity | exact IH].
    + destruct (split_newline r) as [|x xs];
        [repeat constructor; cbn; now rewrite E|].
      inversion IH; subst. constructor; [|assumption].
      cbn [has_newline]. rewrite E. assumption.
Qed.

(** X1.  Whatever the file holds, no host read from it is the empty string
    and no host contains a newline: blank lines, a trailing newline and an
    empty file give no host. *)
Theorem read_hosts_are_lines (content host : string) :
  In host (read_hosts content) ->
  host <> "" /\ has_newline host = false.
Proof.
  unfold read_hosts. intros H. apply filter_In in H as [Hin Hne]. split.
  - intros ->. discriminate.
  - pose proof (split_newline_pieces content) as F.
    rewrite Forall_forall in F. now apply F.
Qed.

Lemma read_hosts_are_lines_witness :
  "b" <> "" /\ has_newline "b" = false.
Proof.
  apply (read_hosts_are_lines ("a" ++ nl ++ nl ++ "b" ++ nl) "b").
  cbn. right. left. reflexivity.
Defined.

Lemma split_newline_line (x : string) :
  has_newline x = false -> split_newline x = [x].
Proof.
  induction x as [|ch r IH]; [reflexivity|]. cbn [has_newline split_newline].
  destruct (Ascii.eqb ch "010"%char); [discriminate|]. cbn [orb].
  intros H. now rewrite IH.
Qed.

Lemma split_newline_app (x rest : string) :
  has_newline x = false ->
  split_newline (x ++ nl ++ rest) = x :: split_newline rest.
Proof.
  induction x as [|ch r IH]; [reflexivity|]. cbn [has_newline].
  destruct (Ascii.eqb ch "010"%char) eqn:E; [discriminate|]. cbn [orb].
  intros H. cbn [String.append split_newline]. rewrite E.
  change (r ++ String "010" rest)%string with (r ++ nl ++ rest)%string.
  now rewrite IH.
Qed.

Lemma split_newline_concat (l : list string) :
  l <> [] -> Forall (fun x => has_newline x = false) l ->
  split_newline (String.concat nl l) = l.
Proof.
  induction l as [|x r IH]; [congruence|]. intros _ F.
  inversion F as [|? ? Hx Hr]; subst. destruct r as [|y r'].
  - cbn [String.concat]. now apply split_newline_line.
  - cbn [String.concat]. fold (String.concat nl (y :: r')).
    rewrite split_newline_app by exact Hx. f_equal.
    apply IH; [discriminate | exact Hr].
Qed.

(** X2.  A file written as lines, one host per line and the lines joined by
    newlines, is read back as these lines in their order, without the empty
    ones; duplicates are kept. *)
Theorem read_hosts_of_lines (l : list string) :
  Forall (fun x => has_newline x = false) l ->
  read_hosts (String.concat nl l)
  = filter (fun a => negb (String.eqb a "")) l.
Proof.
  intros F. unfold read_hosts. destruct l as [|x r]; [reflexivity|].
  rewrite split_newline_concat; [reflexivity | discriminate | exact F].
Qed.

Lemma read_hosts_of_lines_witness :
  read_hosts (String.concat nl ["web1"; ""; "web2"; "web1"; ""])
  = ["web1"; "web2"; "web1"].
Proof.
  apply (read_hosts_of_lines ["web1"; ""; "web2"; "web1"; ""]).
  repeat constructor.
Defined.

(** ** The option loop *)

Ltac flag :=
  intros;
  repeat match goal with H : _ \/ _ |- _ => destruct H end;
  try discriminate; auto 8.

Lemma getopt_loop_flags (opts : list opt) :
  forall c0 c,
    getopt_loop c0 opts = Options c ->
    command c = command c0
    /\ (debug c = true <-> debug c0 = true \/ In Od opts \/ In On opts)
    /\ (dryrun c = true <-> dryrun c0 = true \/ In On opts)
    /\ (errorcodes c = true <-> errorcodes c0 = true \/ In Oe opts)
    /\ (group c = true <-> group c0 = true \/ In Og opts)
    /\ (join c = true <-> join c0 = true \/ In Oj opts)
    /\ (nostrict c = true <-> nostrict c0 = true \/ In ON opts)
    /\ (quiet c = true <-> quiet c0 = true \/ In Oq opts)
    /\ (silent c = true <-> silent c0 = true \/ In Os opts).
Proof.
  induction opts as [|o rest IH]; intros c0 c H.
  - cbn in H. inversion H; subst. cbn [In]. tauto.
  - destruct o; cbn [getopt_loop] in H; try discriminate;
      apply IH in H; cbn [command debug dryrun errorcodes group join nostrict
                            quiet silent set_debug set_dryrun set_errorcodes
                            set_file set_group set_identity set_join set_login
                            set_maxjobs set_nostrict set_port set_quiet
                            set_silent] in H;
      destruct H as (H1 & H2 & H3 & H4 & H5 & H6 & H7 & H8 & H9);
      rewrite H2, H3, H4, H5, H6, H7, H8, H9; cbn [In];
      (split; [exact H1|]);
      repeat split; flag.
Qed.

(** X3.  When the option loop runs to its end, the remote command is what
    follows the options, and each flag is set exactly when its option
    occurs, wherever and however often: [-n] sets the dry run and debugging,
    [-d] debugging alone. *)
Theorem flags_follow_the_options (opts : list opt) (operands : list string)
    (c : config) :
  parse opts operands = Options c ->
  command c = operands
  /\ (debug c = true <-> In Od opts \/ In On opts)
  /\ (dryrun c = true <-> In On opts)
  /\ (errorcodes c = true <-> In Oe opts)
  /\ (group c = true <-> In Og opts)
  /\ (join c = true <-> In Oj opts)
  /\ (nostrict c = true <-> In ON opts)
  /\ (quiet c = true <-> In Oq opts)
  /\ (silent c = true <-> In Os opts).
Proof.
  intros H. apply getopt_loop_flags in H.
  cbn [defaults command debug dryrun errorcodes group join nostrict quiet
         silent] in H.
  destruct H as (H1 & H2 & H3 & H4 & H5 & H6 & H7 & H8 & H9).
  rewrite H2, H3, H4, H5, H6, H7, H8, H9.
  split; [exact H1|]. repeat split; flag.
Qed.

Lemma flags_follow_the_options_witness :
  command (set_silent (set_debug (set_dryrun (set_group uname)))) = ["uname"]
  /\ (debug (set_silent (set_debug (set_dryrun (set_group uname)))) = true
      <-> In Od [Og; On; Os; Og] \/ In On [Og; On; Os; Og]).
Proof.
  destruct (flags_follow_the_options [Og; On; Os; Og] ["uname"] _ eq_refl)
    as (H1 & H2 & _).
  split; [exact H1 | exact H2].
Defined.

Lemma getopt_loop_app (pre post : list opt) :
  forall c0,
    getopt_loop c0 (pre ++ post)
    = match getopt_loop c0 pre with
      | Options c1 => getopt_loop c1 post
      | r => r
      end.
Proof.
  induction pre as [|o pre IH]; intros c0; [reflexivity|].
  destruct o; cbn [app getopt_loop]; try apply IH; reflexivity.
Qed.

Lemma getopt_loop_runs (opts : list opt) :
  Forall (fun o => stops o = false) opts ->
  forall c0, exists c, getopt_loop c0 opts = Options c.
Proof.
  induction 1 as [|o rest Ho _ IH]; intros c0; [now exists c0|].
  destruct o; try discriminate; cbn [getopt_loop]; apply IH.
Qed.

(** X4.  The first of [-h], [-u], [-v] or an unknown option decides how the
    option loop ends: the options before it and after it change nothing,
    and the script never gets to its configuration.  Without such an option
    the loop always ends with a configuration. *)
Theorem first_stop_decides (operands : list string) :
  (forall pre o post,
      Forall (fun x => stops x = false) pre -> stops o = true ->
      parse (pre ++ o :: post) operands = parse [o] operands
      /\ forall c, parse [o] operands <> Options c)
  /\ (forall opts,
        Forall (fun x => stops x = false) opts ->
        exists c, parse opts operands = Options c).
Proof.
  split.
  - intros pre o post Hpre Ho. unfold parse. rewrite getopt_loop_app.
    destruct (getopt_loop_runs pre Hpre (defaults operands)) as [c1 ->].
    destruct o; try discriminate; cbn [getopt_loop];
      (split; [reflexivity | discriminate]).
  - intros opts H. apply getopt_loop_runs, H.
Qed.

Lemma getopt_loop_values (opts : list opt) :
  forall c0 c,
    getopt_loop c0 opts = Options c ->
    ((forall n, ~ In (Om n) opts) -> maxjobs c = maxjobs c0)
    /\ ((forall n, ~ In (Op n) opts) -> port c = port c0)
    /\ ((forall a, ~ In (Ol a) opts) -> login c = login c0).
Proof.
  induction opts as [|o rest IH]; intros c0 c H.
  - cbn in H. inversion H; subst. tauto.
  - destruct o; cbn [getopt_loop] in H; try discriminate;
      apply IH in H; cbn [maxjobs port login set_debug set_dryrun
                            set_errorcodes set_file set_group set_identity
                            set_join set_login set_maxjobs set_nostrict
                            set_port set_quiet set_silent] in H;
      destruct H as (H1 & H2 & H3);
      repeat split; intros K;
        first [ apply H1 | apply H2 | apply H3
              | exfalso; eapply K; left; reflexivity ];
        intros x Hx; apply (K x); now right.
Qed.

(** X5.  For [-m], [-p] and [-l] the last occurrence wins, whatever comes
    before it; without [-m] the cap is 30, and without [-p] or [-l] the
    script has no port and no login. *)
Theorem last_value_wins (opts : list opt) (operands : list string)
    (c : config) :
  parse opts operands = Options c ->
  ((forall n, ~ In (Om n) opts) -> maxjobs c = int 30)
  /\ ((forall n, ~ In (Op n) opts) -> port c = None)
  /\ ((forall a, ~ In (Ol a) opts) -> login c = None)
  /\ (forall pre m post,
        opts = pre ++ Om m :: post -> (forall n, ~ In (Om n) post) ->
        maxjobs c = m)
  /\ (forall pre p post,
        opts = pre ++ Op p :: post -> (forall n, ~ In (Op n) post) ->
        port c = Some p)
  /\ (forall pre a post,
        opts = pre ++ Ol a :: post -> (forall b, ~ In (Ol b) post) ->
        login c = Some a).
Proof.
  intros H. unfold parse in H.
  destruct (getopt_loop_values _ _ _ H) as (D1 & D2 & D3).
  split; [exact D1|]. split; [exact D2|]. split; [exact D3|].
  repeat split; intros pre v post -> Hpost;
    rewrite getopt_loop_app in H;
    destruct (getopt_loop (defaults operands) pre) as [c1| |];
      try discriminate; cbn [getopt_loop] in H;
    destruct (getopt_loop_values _ _ _ H) as (V1 & V2 & V3).
  - now rewrite V1.
  - now rewrite V2.
  - now rewrite V3.
Qed.

Lemma last_value_wins_witness :
  maxjobs (set_maxjobs (int 2) (set_group (set_maxjobs (int 7) uname)))
  = int 2.
Proof.
  destruct (last_value_wins [Om (int 7); Og; Om (int 2)] ["uname"] _ eq_refl)
    as (_ & _ & _ & H & _).
  apply (H [Om (int 7); Og] (int 2) []); [reflexivity | intros n []].
Defined.

(** ** The identity file *)

(** X6.  The identity file of [-i] is read from the command line and then
    used nowhere: neither the start of the script, nor the argument vector
    of any host, nor any run depends on it. *)
Theorem identity_is_ignored (c : config) (a : string) (hosts : list string)
    (stack : nat) :
  boot (set_identity a c) hosts = boot c hosts
  /\ (forall host, cmd (set_identity a c) host = cmd c host)
  /\ forall evs s,
       run (set_identity a c) hosts stack s evs = run c hosts stack s evs.
Proof.
  split; [reflexivity|]. split; [reflexivity|]. intros evs s. reflexivity.
Qed.

(** ** The slots of the queue *)

Section Slots.
Variable c : config.
Variable hosts : list string.
Variable stack : nat.

(** When [q.process] returns to the loop it has either changed nothing,
    for want of a pending host or of a free slot, or started the first
    pending host. *)
Lemma q_process_continue (room : nat) (s s' : state) (out : list effect) :
  (dryrun c = true -> workers s = 0) ->
  q_process c room (tasks s) s = (Continue s', out) ->
  (s' = s /\ out = []
   /\ (tasks s = [] \/ below (workers s) (maxjobs c) = false))
  \/ (dryrun c = false
      /\ exists h rest,
           tasks s = h :: rest /\ below (workers s) (maxjobs c) = true
           /\ s' = State rest (workers s + 1) (ticks s)
                     (running s ++ [(spawned s, h)]) (S (spawned s)) (i s)
                     (exitcode s) (lasthost s) (output s)
           /\ out = vlog c "[%s] %s" [Paint yellow (Str h); Inspect (cmd c h)]
                    ++ [started c h]).
Proof.
  intros Hw Hq. destruct (dryrun c) eqn:Hdry.
  - specialize (Hw eq_refl). left.
    destruct (below 0 (maxjobs c)) eqn:Em.
    + destruct (tasks s) as [|h r] eqn:Et.
      * cbn in Hq. inversion Hq; subst. auto.
      * pose proof (q_process_dry_ends c (h :: r) Hdry Em
                      ltac:(discriminate) room s Hw) as E.
        rewrite Hq in E. discriminate.
    + rewrite <- Hw in Em. rewrite q_process_full in Hq by exact Em.
      inversion Hq; subst. auto.
  - rewrite (q_process_spawns c _ _ _ Hdry) in Hq.
    destruct (tasks s) as [|h r] eqn:Et.
    + left. inversion Hq; subst. auto.
    + destruct (below (workers s) (maxjobs c)) eqn:Em.
      * right. split; [reflexivity|].
        exists h, r. inversion Hq; subst. auto.
      * left. inversion Hq; subst. auto.
Qed.

(** A ['close'] after which the loop goes on: the handler has counted the
    job and the queue has then run [q.process] with the slot freed. *)
Lemma close_continue (s s' : state) pid host code out :
  inv c hosts s -> child pid (running s) = Some host ->
  step c hosts stack s (Close pid code) = Some (Continue s', out) ->
  dryrun c = false /\ below (workers s - 1) (maxjobs c) = true
  /\ exists out',
       q_process c stack (tasks s)
         (State (tasks s) (workers s - 1) (ticks s)
            (remove_child pid (running s)) (spawned s) (i s + 1)
            (exitcode s + to_number code) (lasthost s) (output s))
       = (Continue s', out')
       /\ out = exit_report c hosts
                  (State (tasks s) (workers s) (ticks s)
                     (remove_child pid (running s)) (spawned s) (i s + 1)
                     (exitcode s + to_number code) (lasthost s) (output s))
                  host code ++ out'.
Proof.
  intros Hinv Hch H.
  destruct (inv_alive _ _ _ _ _ Hinv Hch) as (Hdry & Hfree & Hone).
  split; [exact Hdry|]. split; [exact Hfree|].
  cbn [step] in H. rewrite Hch in H.
  pose proof (some_pair_fst _ _ _ H) as Hf.
  pose proof (some_pair_snd _ _ _ H) as Hout. clear H.
  unfold on_close, after, next in Hf, Hout. cbn [fst snd] in Hf, Hout.
  cbn [tasks workers ticks running spawned i exitcode lasthost output]
    in Hf, Hout.
  destruct (len (tasks s) + (workers s - 1) =? 0).
  { exfalso.
    match type of Hf with fst (drain c ?x) = _ =>
      destruct (drain_outcome c x) as [E|E] end;
      rewrite E in Hf; discriminate. }
  eexists. split; [|symmetry; exact Hout].
  rewrite <- Hf. apply surjective_pairing.
Qed.

(** The data handlers leave the queue alone. *)
Lemma on_data_frame (s : state) host k d :
  let s' := fst (on_data c s host k d) in
  tasks s' = tasks s /\ workers s' = workers s /\ ticks s' = ticks s
  /\ running s' = running s /\ spawned s' = spawned s /\ i s' = i s
  /\ exitcode s' = exitcode s.
Proof.
  unfold on_data. destruct (silent c); [cbn; auto 10|].
  destruct (group c); [cbn; auto 10|]. destruct (join c); cbn; auto 10.
Qed.

(** Every pending host still has a [q.process] call scheduled for it, or
    the scheduled calls and the live children together fill the cap. *)
Lemma slots_inv (s : state) :
  reachable c hosts stack s ->
  tasks s <> [] ->
  below (workers s + Z.of_nat (ticks s)) (maxjobs c) = false
  \/ len (tasks s) <= Z.of_nat (ticks s).
Proof.
  induction 1 as [|s ev s' out Hr IH Hstep].
  - intros _. right. unfold init, len. cbn. lia.
  - pose proof (reachable_inv c hosts stack s Hr) as Hinv.
    assert (Hw0 : dryrun c = true -> workers s = 0).
    { intros Hd. destruct Hinv as (Hw & _ & _ & Hm). rewrite Hd in Hm.
      destruct Hm as (_ & Hrun & _). now rewrite Hw, Hrun. }
    destruct ev as [|pid k d|pid code|pid|arg]; cbn [step] in Hstep.
    + destruct (ticks s) as [|n] eqn:Et; [discriminate|].
      injection Hstep as Hq.
      apply (q_process_continue stack
               (State (tasks s) (workers s) n (running s) (spawned s) (i s)
                  (exitcode s) (lasthost s) (output s))) in Hq;
        [|exact Hw0].
      cbn [tasks workers ticks] in Hq.
      destruct Hq as [(-> & _ & Hc) | (_ & h & r & Eh & Hlt & -> & _)];
        cbn [tasks workers ticks]; intros Hne.
      * destruct Hc as [Hc|Hc]; [contradiction|]. left.
        apply (below_full _ (workers s)); [lia | exact Hc].
      * rewrite Eh in IH. specialize (IH ltac:(discriminate)).
        rewrite len_cons in IH. destruct IH as [IH|IH]; [left | right; lia].
        replace (workers s + 1 + Z.of_nat n)
          with (workers s + Z.of_nat (S n)) by lia.
        exact IH.
    + destruct (child pid (running s)) as [host|]; [|discriminate].
      pose proof (on_data_frame s host k d) as F.
      destruct (on_data c s host k d) as [s1 o1]. cbn [fst] in F.
      inversion Hstep; subst s1.
      destruct F as (-> & -> & -> & _). exact IH.
    + destruct (child pid (running s)) as [host|] eqn:Hch; [|discriminate].
      assert (Hs : step c hosts stack s (Close pid code)
                   = Some (Continue s', out))
        by (cbn [step]; now rewrite Hch).
      destruct (close_continue s s' pid host code out Hinv Hch Hs)
        as (Hdry & Hfree & out' & Hq & _).
      match type of Hq with q_process c _ _ ?x = _ =>
        apply (q_process_continue stack x) in Hq; [|intros; congruence] end.
      cbn [tasks workers ticks] in Hq.
      destruct Hq as [(-> & _ & Hc) | (_ & h & r & Eh & Hlt & -> & _)];
        cbn [tasks workers ticks]; intros Hne.
      * destruct Hc as [Hc|Hc]; [contradiction|].
        rewrite Hfree in Hc. discriminate.
      * rewrite Eh in IH. specialize (IH ltac:(discriminate)).
        rewrite len_cons in IH. destruct IH as [IH|IH]; [left | right; lia].
        replace (workers s - 1 + 1 + Z.of_nat (ticks s))
          with (workers s + Z.of_nat (ticks s)) by lia.
        exact IH.
    + destruct (child pid (running s)); discriminate.
    + inversion Hstep; subst. exact IH.
Qed.
End Slots.

(** X7.  At every moment of a run a child is alive only if the queue found
    the number of the others below the cap: with a cap that is an integer
    at most that many children are alive (none when it is zero or less),
    with a cap of 1.5 at most two, with NaN none.  The queue's own counter
    is the number of live children, outside a dry run every host is
    pending, running or finished, and a dry run never has a live child. *)
Theorem children_within_cap (c : config) (hosts : list string)
    (stack : nat) (s : state) :
  reachable c hosts stack s ->
  (running s <> [] -> below (len (running s) - 1) (maxjobs c) = true)
  /\ (forall k, maxjobs c = int k -> len (running s) <= Z.max 0 k)
  /\ workers s = len (running s)
  /\ (dryrun c = false ->
      i s + len (running s) + len (tasks s) = len hosts)
  /\ (dryrun c = true -> running s = []).
Proof.
  intros Hr.
  destruct (reachable_inv c hosts stack s Hr) as (Hw & Hmax & _ & Hm).
  pose proof (len_nonneg (running s)) as Hn.
  assert (Hb : running s <> [] ->
               below (len (running s) - 1) (maxjobs c) = true).
  { intros Hne. rewrite <- Hw. apply Hmax. rewrite Hw.
    destruct (running s); [congruence|]. rewrite len_cons.
    pose proof (len_nonneg l). lia. }
  split; [exact Hb|]. split.
  - intros k Hk. destruct (running s) as [|x r] eqn:Er; [cbn; lia|].
    specialize (Hb ltac:(discriminate)).
    rewrite Hk, below_int in Hb. apply Z.ltb_lt in Hb. lia.
  - split; [exact Hw|].
    destruct (dryrun c); split; intros; try discriminate; tauto.
Qed.

Lemma children_within_cap_witness :
  ([(0%nat, "a"); (1%nat, "b")] <> [] ->
   below (len [(0%nat, "a"); (1%nat, "b")] - 1) (Finite (3 # 2)) = true)
  /\ (forall k, Finite (3 # 2) = int k ->
                len [(0%nat, "a"); (1%nat, "b")] <= Z.max 0 k)
  /\ 2 = len [(0%nat, "a"); (1%nat, "b")]
  /\ (dryrun (set_maxjobs (Finite (3 # 2)) uname) = false ->
      0 + len [(0%nat, "a"); (1%nat, "b")] + len ["c"]
      = len ["a"; "b"; "c"])
  /\ (dryrun (set_maxjobs (Finite (3 # 2)) uname) = true ->
      [(0%nat, "a"); (1%nat, "b")] = []).
Proof.
  apply (children_within_cap (set_maxjobs (Finite (3 # 2)) uname)
           ["a"; "b"; "c"] plenty
           (State ["c"] 2 1 [(0%nat, "a"); (1%nat, "b")] 2 0 0 None
              [("a", ""); ("b", ""); ("c", "")])).
  apply (reach_step _ _ _
           (State ["b"; "c"] 1 2 [(0%nat, "a")] 1 0 0 None
              [("a", ""); ("b", ""); ("c", "")])
           Tick _ [spawn (VStr "ssh") [VStr "b"; VStr "uname"]]);
    [|reflexivity].
  apply (reach_step _ _ _ (init ["a"; "b"; "c"]) Tick _
           [spawn (VStr "ssh") [VStr "a"; VStr "uname"]]);
    [apply reach_init | reflexivity].
Defined.

(** A cap of 1.5 lets two children run at a time, a cap that is not a
    number none. *)
Example fractional_cap_runs_two :
  run (set_maxjobs (Finite (3 # 2)) uname) ["a"; "b"; "c"] plenty
    (init ["a"; "b"; "c"]) [Tick; Tick; Tick]
  = Some
      (Continue
         (State ["c"] 2 0 [(0%nat, "a"); (1%nat, "b")] 2 0 0 None
            [("a", ""); ("b", ""); ("c", "")]),
       [spawn (VStr "ssh") [VStr "a"; VStr "uname"];
        spawn (VStr "ssh") [VStr "b"; VStr "uname"]])
  /\ run (set_maxjobs NaN uname) ["a"] plenty (init ["a"]) [Tick]
     = Some (Continue (State ["a"] 0 0 [] 0 0 0 None [("a", "")]), []).
Proof. split; reflexivity. Qed.

(** X8.  Once the [q.process] calls scheduled at the start have all run,
    the queue leaves no slot idle: as long as a host is pending, the number
    of live children is not below the cap, so that with a cap that is an
    integer exactly that many children are alive (none when it is zero or
    less). *)
Theorem no_idle_slot (c : config) (hosts : list string) (stack : nat)
    (s : state) :
  reachable c hosts stack s -> ticks s = 0%nat -> tasks s <> [] ->
  below (len (running s)) (maxjobs c) = false
  /\ (forall k, maxjobs c = int k -> len (running s) = Z.max 0 k).
Proof.
  intros Hr Ht Hne.
  destruct (reachable_inv c hosts stack s Hr) as (Hw & Hmax & _ & _).
  pose proof (len_nonneg (running s)).
  assert (Hb : below (len (running s)) (maxjobs c) = false).
  { destruct (slots_inv c hosts stack s Hr Hne) as [H1|H1];
      rewrite Ht in H1.
    - rewrite <- Hw. now rewrite Z.add_0_r in H1.
    - destruct (tasks s); [congruence|]. rewrite len_cons in H1.
      pose proof (len_nonneg l). cbn in H1. lia. }
  split; [exact Hb|]. intros k Hk.
  rewrite Hk, below_int in Hb. apply Z.ltb_ge in Hb.
  destruct (Z.eq_dec (workers s) 0) as [E|E]; [lia|].
  specialize (Hmax ltac:(lia)). rewrite Hk, below_int in Hmax.
  apply Z.ltb_lt in Hmax. lia.
Qed.

Lemma no_idle_slot_witness :
  below (len [(0%nat, "a"); (1%nat, "b")]) (Finite (3 # 2)) = false
  /\ (forall k, Finite (3 # 2) = int k ->
                len [(0%nat, "a"); (1%nat, "b")] = Z.max 0 k).
Proof.
  apply (no_idle_slot (set_maxjobs (Finite (3 # 2)) uname) ["a"; "b"; "c"]
           plenty
           (State ["c"] 2 0 [(0%nat, "a"); (1%nat, "b")] 2 0 0 None
              [("a", ""); ("b", ""); ("c", "")])).
  - apply (reach_step _ _ _
             (State ["c"] 2 1 [(0%nat, "a"); (1%nat, "b")] 2 0 0 None
                [("a", ""); ("b", ""); ("c", "")]) Tick _ []);
      [|reflexivity].
    apply (reach_step _ _ _
             (State ["b"; "c"] 1 2 [(0%nat, "a")] 1 0 0 None
                [("a", ""); ("b", ""); ("c", "")])
             Tick _ [spawn (VStr "ssh") [VStr "b"; VStr "uname"]]);
      [|reflexivity].
    apply (reach_step _ _ _ (init ["a"; "b"; "c"]) Tick _
             [spawn (VStr "ssh") [VStr "a"; VStr "uname"]]);
      [apply reach_init | reflexivity].
  - reflexivity.
  - discriminate.
Defined.

(** ** The order of the jobs *)

Lemma free_of_filter (f : effect -> bool) (l : list effect) :
  free_of f l -> filter f l = [].
Proof.
  unfold free_of. induction l as [|e l IH]; [reflexivity|].
  cbn [forallb filter].
  destruct (f e); [discriminate|]. exact IH.
Qed.

Lemma firstn_then (A : Type) (k1 k2 : nat) (l : list A) :
  firstn k1 l ++ firstn k2 (skipn k1 l) = firstn (k1 + k2) l.
Proof.
  revert l. induction k1 as [|k1 IH]; intros l; [reflexivity|].
  destruct l as [|x l]; cbn [firstn skipn Nat.add app].
  - now destruct k2.
  - now rewrite IH.
Qed.

Lemma skipn_then (A : Type) (k1 k2 : nat) (l : list A) :
  skipn k2 (skipn k1 l) = skipn (k1 + k2) l.
Proof.
  revert l. induction k1 as [|k1 IH]; intros l; [reflexivity|].
  destruct l as [|x l]; cbn [skipn Nat.add]; [now destruct k2 | apply IH].
Qed.

Lemma vlog_no_spawn (c : config) fmt args :
  filter is_spawn (vlog c fmt args) = [].
Proof. unfold vlog. now destruct (debug c). Qed.

Lemma drain_no_spawn (c : config) (s : state) :
  filter is_spawn (snd (drain c s)) = [].
Proof. apply free_of_filter. apply drain_quiet; reflexivity. Qed.

Lemma on_data_no_spawn (c : config) (s : state) host k d :
  filter is_spawn (snd (on_data c s host k d)) = [].
Proof.
  unfold on_data. destruct (silent c); [reflexivity|].
  destruct (group c).
  - cbn [snd]. destruct (lasthost s) as [h|];
      [destruct (negb (String.eqb host h))|]; destruct k; reflexivity.
  - destruct (join c); [reflexivity|]. destruct k; reflexivity.
Qed.

Lemma exit_report_no_spawn (c : config) hosts s host code :
  filter is_spawn (exit_report c hosts s host code) = [].
Proof.
  unfold exit_report. destruct (errorcodes c); [reflexivity|].
  now destruct (join c).
Qed.

Section Order.
Variable c : config.
Variable hosts : list string.
Variable stack : nat.
Hypothesis Hdry : dryrun c = false.

Lemma q_process_order (room : nat) (s : state) o out :
  q_process c room (tasks s) s = (o, out) ->
  exists k,
    (k <= length (tasks s))%nat
    /\ filter is_spawn out = map (started c) (firstn k (tasks s))
    /\ forall s', final_state o = Some s' -> tasks s' = skipn k (tasks s).
Proof.
  rewrite (q_process_spawns c _ _ _ Hdry). destruct (tasks s) as [|h r] eqn:Et.
  - intros H. inversion H; subst. exists 0%nat. cbn. split; [lia|].
    split; [reflexivity|]. intros s' E. inversion E; subst. exact Et.
  - destruct (below (workers s) (maxjobs c)).
    + intros H. inversion H; subst. exists 1%nat.
      cbn [length firstn skipn map].
      split; [lia|]. split.
      * rewrite filter_app, vlog_no_spawn. reflexivity.
      * intros s' E. inversion E; subst. reflexivity.
    + intros H. inversion H; subst. exists 0%nat. cbn. split; [lia|].
      split; [reflexivity|]. intros s' E. inversion E; subst. exact Et.
Qed.

Lemma step_order (s : state) ev o out :
  step c hosts stack s ev = Some (o, out) ->
  exists k,
    (k <= length (tasks s))%nat
    /\ filter is_spawn out = map (started c) (firstn k (tasks s))
    /\ forall s', final_state o = Some s' -> tasks s' = skipn k (tasks s).
Proof.
  assert (Z0 : forall o0 out0,
             filter is_spawn out0 = [] ->
             (forall s', final_state o0 = Some s' -> tasks s' = tasks s) ->
             exists k,
               (k <= length (tasks s))%nat
               /\ filter is_spawn out0 = map (started c) (firstn k (tasks s))
               /\ forall s', final_state o0 = Some s' ->
                             tasks s' = skipn k (tasks s)).
  { intros o0 out0 E F. exists 0%nat. rewrite E. cbn.
    split; [lia|]. split; [reflexivity | exact F]. }
  destruct ev as [|pid k d|pid code|pid|arg]; cbn [step]; intros H.
  - destruct (ticks s) as [|n]; [discriminate|]. injection H as H.
    match type of H with q_process c _ _ ?x = _ =>
      exact (q_process_order stack x o out H) end.
  - destruct (child pid (running s)) as [host|]; [|discriminate].
    pose proof (on_data_frame c s host k d) as F.
    pose proof (on_data_no_spawn c s host k d) as E.
    destruct (on_data c s host k d) as [s1 o1]. cbn [fst snd] in *.
    inversion H; subst. apply Z0; [exact E|].
    intros s' K. inversion K; subst. tauto.
  - destruct (child pid (running s)) as [host|]; [|discriminate].
    pose proof (some_pair_fst _ _ _ H) as Hf.
    pose proof (some_pair_snd _ _ _ H) as Hout. clear H.
    unfold on_close, after, next in Hf, Hout. cbn [fst snd] in Hf, Hout.
    cbn [tasks workers ticks running spawned i exitcode lasthost output]
      in Hf, Hout.
    subst out. rewrite filter_app, exit_report_no_spawn. cbn [app].
    destruct (len (tasks s) + (workers s - 1) =? 0).
    + apply Z0; [apply drain_no_spawn|].
      intros s' K. rewrite <- Hf in K.
      match type of K with final_state (fst (drain c ?x)) = _ =>
        destruct (drain_outcome c x) as [E|E] end;
        rewrite E in K; inversion K; subst; reflexivity.
    + match goal with |- context [q_process c _ _ ?x] =>
        destruct (q_process_order stack x _ _ (surjective_pairing _))
          as (k & H1 & H2 & H3) end.
      cbn [tasks] in *. exists k. split; [exact H1|]. split; [exact H2|].
      intros s' K. apply H3. now rewrite Hf.
  - destruct (child pid (running s)); [|discriminate]. inversion H; subst.
    apply Z0; [reflexivity | discriminate].
  - inversion H; subst. apply Z0; [reflexivity|].
    intros s' K. now inversion K.
Qed.

Lemma run_order (evs : list event) :
  forall s o out,
    run c hosts stack s evs = Some (o, out) ->
    exists k,
      (k <= length (tasks s))%nat
      /\ filter is_spawn out = map (started c) (firstn k (tasks s))
      /\ forall s', final_state o = Some s' -> tasks s' = skipn k (tasks s).
Proof.
  induction evs as [|ev rest IH]; intros s o out Hrun.
  - cbn in Hrun. inversion Hrun; subst. exists 0%nat. cbn.
    split; [lia|]. split; [reflexivity|]. intros s' E. now inversion E.
  - cbn [run] in Hrun.
    destruct (step c hosts stack s ev) as [[o1 out1]|] eqn:E; [|discriminate].
    destruct (step_order s ev o1 out1 E) as (k1 & L1 & F1 & T1).
    destruct o1 as [s1|code1 s1|].
    + destruct (run c hosts stack s1 rest) as [[o2 out2]|] eqn:E2;
        [|discriminate].
      inversion Hrun; subst. cbn [fst snd].
      destruct (IH _ _ _ E2) as (k2 & L2 & F2 & T2).
      specialize (T1 s1 eq_refl). rewrite T1 in L2, F2, T2.
      rewrite length_skipn in L2.
      exists (k1 + k2)%nat. split; [lia|]. split.
      * rewrite filter_app, F1, F2, <- map_app, firstn_then. reflexivity.
      * intros s' K. rewrite (T2 s' K). apply skipn_then.
    + destruct rest; [|discriminate]. inversion Hrun; subst.
      exists k1. auto.
    + destruct rest; [|discriminate]. inversion Hrun; subst.
      exists k1. auto.
Qed.
End Order.

(** X9.  Outside a dry run the hosts are started in the order of the list,
    each at most once: at any point of a run the [spawn] calls made so far
    are those of the first hosts of the list, in order and with the argument
    vector of each, and the pending hosts are the rest of the list. *)
Theorem hosts_start_in_order (c : config) (hosts : list string) (stack : nat)
    (evs : list event) (o : outcome) (out : list effect) :
  dryrun c = false ->
  run c hosts stack (init hosts) evs = Some (o, out) ->
  exists k,
    (k <= length hosts)%nat
    /\ filter is_spawn out = map (started c) (firstn k hosts)
    /\ forall s, final_state o = Some s -> tasks s = skipn k hosts.
Proof.
  intros Hdry Hrun. exact (run_order c hosts stack Hdry evs _ _ _ Hrun).
Qed.

Lemma hosts_start_in_order_witness :
  exists k,
    (k <= length ["a"; "b"; "c"])%nat
    /\ filter is_spawn
         [spawn (VStr "ssh") [VStr "a"; VStr "uname"];
          spawn (VStr "ssh") [VStr "b"; VStr "uname"]]
       = map (started uname_one_at_a_time) (firstn k ["a"; "b"; "c"])
    /\ forall s,
         final_state
           (Continue
              (State ["c"] 1 2 [(1%nat, "b")] 2 1 3 None
                 [("a", ""); ("b", ""); ("c", "")]))
         = Some s ->
         tasks s = skipn k ["a"; "b"; "c"].
Proof.
  apply (hosts_start_in_order uname_one_at_a_time ["a"; "b"; "c"] plenty
           [Tick; Close 0 (Some 3%N)]); reflexivity.
Defined.

(** ** Progress on SIGUSR1 *)

(** X10.  SIGUSR1 only prints: a run from which the signals are taken out
    ends in the same way, in the same state, and prints one line less for
    each signal. *)
Theorem signals_only_print (c : config) (hosts : list string) (stack : nat)
    (evs : list event) (s : state) (o : outcome) (out : list effect) :
  run c hosts stack s evs = Some (o, out) ->
  exists out',
    run c hosts stack s (filter (fun ev => negb (is_signal ev)) evs)
    = Some (o, out')
    /\ length out
       = (length out' + length (filter is_signal evs))%nat.
Proof.
  revert s o out. induction evs as [|ev rest IH]; intros s o out Hrun.
  - cbn in Hrun. inversion Hrun; subst. exists []. split; reflexivity.
  - destruct (is_signal ev) eqn:Es.
    + destruct ev; try discriminate. cbn [filter is_signal negb].
      cbn [run step] in Hrun.
      destruct (run c hosts stack s rest) as [[o2 out2]|] eqn:E2;
        [|discriminate].
      inversion Hrun; subst. destruct (IH _ _ _ E2) as (out' & R & L).
      exists out'. split; [exact R|]. cbn [after snd app length]. lia.
    + cbn [filter]. rewrite Es. cbn [negb run]. cbn [run] in Hrun.
      destruct (step c hosts stack s ev) as [[o1 out1]|]; [|discriminate].
      destruct o1 as [s1|code1 s1|].
      * destruct (run c hosts stack s1 rest) as [[o2 out2]|] eqn:E2;
          [|discriminate].
        inversion Hrun; subst. destruct (IH _ _ _ E2) as (out' & R & L).
        rewrite R. eexists. split; [reflexivity|].
        cbn [after fst snd]. rewrite !length_app. lia.
      * destruct rest; [|discriminate]. inversion Hrun; subst.
        eexists. split; [reflexivity|]. cbn. lia.
      * destruct rest; [|discriminate]. inversion Hrun; subst.
        eexists. split; [reflexivity|]. cbn. lia.
Qed.

Lemma signals_only_print_witness :
  exists out',
    run uname ["a"] plenty (init ["a"])
      (filter (fun ev => negb (is_signal ev))
         [Sigusr1 true; Tick; Sigusr1 false; Close 0 (Some 1%N)])
    = Some (Exited 1 (State [] 0 0 [] 1 1 1 None [("a", "")]), out')
    /\ length
         [progress ["a"] (init ["a"]) true;
          spawn (VStr "ssh") [VStr "a"; VStr "uname"];
          progress ["a"]
            (State [] 1 0 [(0%nat, "a")] 1 0 0 None [("a", "")]) false]
       = (length out'
          + length
              (filter is_signal
                 [Sigusr1 true; Tick; Sigusr1 false; Close 0 (Some 1%N)]))%nat.
Proof.
  apply (signals_only_print uname ["a"] plenty
           [Sigusr1 true; Tick; Sigusr1 false; Close 0 (Some 1%N)]).
  reflexivity.
Defined.

(** ** Exit lines *)

Lemma exit_line_grey (t : text) (a : list text) :
  is_exit_line (console_log (Paint grey t) a) = false.
Proof. destruct a as [|x [|y [|z [|w l]]]]; reflexivity. Qed.

Lemma run_count (c : config) (hosts : list string) (stack : nat)
    (f : effect -> bool) (w : event -> nat) :
  (forall s ev o out,
      step c hosts stack s ev = Some (o, out) ->
      length (filter f out) = w ev) ->
  forall evs s o out,
    run c hosts stack s evs = Some (o, out) ->
    length (filter f out) = list_sum (map w evs).
Proof.
  intros Hstep. induction evs as [|ev rest IH]; intros s o out Hrun.
  - cbn in Hrun. now inversion Hrun.
  - cbn [run] in Hrun. cbn [map list_sum].
    destruct (step c hosts stack s ev) as [[o1 out1]|] eqn:E; [|discriminate].
    pose proof (Hstep _ _ _ _ E) as H1.
    destruct o1 as [s1|code1 s1|].
    + destruct (run c hosts stack s1 rest) as [[o2 out2]|] eqn:E2;
        [|discriminate].
      inversion Hrun; subst. cbn [after snd].
      rewrite filter_app, length_app, H1, (IH _ _ _ E2). reflexivity.
    + destruct rest; [|discriminate]. inversion Hrun; subst. cbn. lia.
    + destruct rest; [|discriminate]. inversion Hrun; subst. cbn. lia.
Qed.

Lemma step_exit_lines (c : config) (hosts : list string) (stack : nat)
    s ev o out :
  step c hosts stack s ev = Some (o, out) ->
  length (filter is_exit_line out)
  = if errorcodes c && is_close ev then 1%nat else 0%nat.
Proof.
  assert (Q : forall l, free_of is_exit_line l ->
                        length (filter is_exit_line l) = 0%nat)
    by (intros l Hl; now rewrite free_of_filter).
  destruct ev as [|pid k d|pid code|pid|arg]; cbn [step is_close];
    rewrite ?andb_false_r; intros H.
  - destruct (ticks s); [discriminate|]. apply some_pair_snd in H.
    subst out. apply Q.
    apply q_process_quiet; solve [reflexivity | exact exit_line_grey].
  - destruct (child pid (running s)) as [host|]; [|discriminate].
    destruct (on_data c s host k d) as [s1 o1] eqn:E.
    inversion H; subst. unfold on_data in E.
    destruct (silent c); [now inversion E|].
    destruct (group c).
    + inversion E; subst. destruct (lasthost s) as [h|];
        [destruct (negb (String.eqb host h))|]; destruct k; reflexivity.
    + destruct (join c); inversion E; subst; [reflexivity|].
      destruct k; reflexivity.
  - destruct (child pid (running s)) as [host|]; [|discriminate].
    apply some_pair_snd in H. subst out. unfold on_close, after.
    cbn [snd]. rewrite filter_app, length_app, andb_true_r.
    match goal with |- context [snd (next c stack ?x)] =>
      rewrite (Q (snd (next c stack x)))
        by (apply next_quiet; solve [reflexivity | exact exit_line_grey])
    end.
    unfold exit_report. destruct (errorcodes c); [reflexivity|].
    destruct (join c); reflexivity.
  - destruct (child pid (running s)); [|discriminate]. now inversion H.
  - now inversion H.
Qed.

(** X11.  With [-e] every ['close'] prints exactly one exit line, so a run
    prints one line per finished job; without [-e] no exit line is ever
    printed. *)
Theorem one_exit_line_per_close (c : config) (hosts : list string) (stack : nat)
    (evs : list event) (s : state) (o : outcome) (out : list effect) :
  run c hosts stack s evs = Some (o, out) ->
  length (filter is_exit_line out)
  = if errorcodes c then length (filter is_close evs) else 0%nat.
Proof.
  intros Hrun.
  rewrite (run_count c hosts stack is_exit_line
             (fun ev => if errorcodes c && is_close ev then 1%nat else 0%nat)
             (step_exit_lines c hosts stack) evs s o out Hrun).
  clear. induction evs as [|ev rest IH].
  - now destruct (errorcodes c).
  - change (list_sum (map ?w (ev :: rest)))
      with (w ev + list_sum (map w rest))%nat.
    rewrite IH. cbn [filter].
    destruct (errorcodes c), (is_close ev); reflexivity.
Qed.

Lemma one_exit_line_per_close_witness :
  length
    (filter is_exit_line
       [spawn (VStr "ssh") [VStr "a"; VStr "uname"];
        console_log (Str "[%s] exited: %s (%s ms)")
          [Paint cyan (Str "a"); Paint red Null; Paint magenta Clock]])
  = if errorcodes (set_errorcodes uname)
    then length (filter is_close [Tick; Close 0 None])
    else 0%nat.
Proof.
  apply (one_exit_line_per_close (set_errorcodes uname) ["a"] plenty
           [Tick; Close 0 None] (init ["a"])
           (Exited 0 (State [] 0 0 [] 1 1 0 None [("a", "")]))).
  reflexivity.
Defined.

(** ** The accumulator of join mode *)

Section Lookup.
Context {V : Type}.

Lemma own_put_same (o : JsObject.t V) (k : string) (v : V) :
  JsObject.own (JsObject.put o k v) k = Some v.
Proof.
  induction o as [|[k' v'] r IH]; cbn [JsObject.put JsObject.own].
  - now rewrite String.eqb_refl.
  - destruct (String.eqb k' k) eqn:E; cbn [JsObject.own]; rewrite E;
      [reflexivity | exact IH].
Qed.

Lemma own_put_other (o : JsObject.t V) (k k' : string) (v : V) :
  k' <> k -> JsObject.own (JsObject.put o k v) k' = JsObject.own o k'.
Proof.
  intros Hne. induction o as [|[k0 v0] r IH]; cbn [JsObject.put JsObject.own].
  - destruct (String.eqb k k') eqn:E; [|reflexivity].
    apply String.eqb_eq in E. congruence.
  - destruct (String.eqb k0 k) eqn:E; cbn [JsObject.own].
    + apply String.eqb_eq in E. subst k0.
      destruct (String.eqb k k') eqn:E'; [|reflexivity].
      apply String.eqb_eq in E'. congruence.
    + destruct (String.eqb k0 k'); [reflexivity | exact IH].
Qed.

Lemma put_keys (o : JsObject.t V) (k : string) (v : V) :
  map fst (JsObject.put o k v)
  = if existsb (String.eqb k) (map fst o) then map fst o
    else map fst o ++ [k].
Proof.
  induction o as [|[k' v'] r IH]; [reflexivity|].
  cbn [JsObject.put map fst existsb]. rewrite (String.eqb_sym k k').
  destruct (String.eqb k' k); cbn [orb map fst]; [reflexivity|].
  rewrite IH. now destruct (existsb (String.eqb k) (map fst r)).
Qed.
End Lookup.

Lemma distinct_existsb (t : string) (l : list string) :
  existsb (String.eqb t) (distinct l) = existsb (String.eqb t) l.
Proof.
  destruct (existsb (String.eqb t) l) eqn:E.
  - apply existsb_eqb_in. apply distinct_in. now apply existsb_eqb_in.
  - apply existsb_eqb_not_in. rewrite distinct_in.
    now apply existsb_eqb_not_in.
Qed.

(** [output] after [hosts.forEach]: one slot for each distinct host, in
    the order in which the hosts first appear. *)
Lemma init_output_keys (hosts : list string) :
  map fst (init_output hosts)
  = distinct (filter (fun h => negb (String.eqb h "__proto__")) hosts).
Proof.
  unfold init_output.
  assert (A : forall (o : JsObject.t string) l0,
             map fst o = distinct l0 ->
             map fst (fold_left (fun o host => assign o host "") hosts o)
             = distinct
                 (l0 ++ filter (fun h => negb (String.eqb h "__proto__"))
                          hosts)).
  { induction hosts as [|h r IH]; intros o l0 Ho.
    - cbn. now rewrite app_nil_r.
    - cbn [fold_left filter]. unfold assign at 2.
      destruct (String.eqb h "__proto__"); cbn [negb]; [now apply IH|].
      rewrite (IH _ (l0 ++ [h])).
      + now rewrite <- app_assoc.
      + rewrite put_keys, distinct_snoc, Ho, distinct_existsb.
        now destruct (existsb (String.eqb h) l0). }
  apply (A JsObject.empty []). reflexivity.
Qed.

Lemma child_in (pid : nat) (l : list (nat * string)) (host : string) :
  child pid l = Some host -> In host (map snd l).
Proof.
  induction l as [|[p h] r IH]; cbn [child map snd In]; [discriminate|].
  destruct (Nat.eqb p pid); [intros E; inversion E; now left|].
  intros E. right. now apply IH.
Qed.

Lemma remove_child_in (pid : nat) (l : list (nat * string)) (host : string) :
  In host (map snd (remove_child pid l)) -> In host (map snd l).
Proof.
  induction l as [|[p h] r IH]; cbn [remove_child map snd In]; [tauto|].
  destruct (Nat.eqb p pid); [now right|].
  cbn [map snd In]. intros [E|E]; [now left | right; now apply IH].
Qed.

Lemma accumulate_keys (o : JsObject.t string) (host d : string) :
  host = "__proto__" \/ In host (map fst o) ->
  map fst (accumulate o host d) = map fst o.
Proof.
  intros H. unfold accumulate, assign.
  destruct (String.eqb host "__proto__") eqn:E;
    [now destruct (JsObject.own o host)|].
  destruct H as [->|H]; [discriminate|].
  apply (proj2 (existsb_eqb_in _ _)) in H.
  destruct (JsObject.own o host); rewrite put_keys, H; reflexivity.
Qed.

Lemma insert_index_perm n k l :
  Permutation (JsObject.insert_index n k l) ((n, k) :: l).
Proof.
  induction l as [|[m k'] r IH]; cbn [JsObject.insert_index]; [reflexivity|].
  destruct (n <=? m)%N; [reflexivity|].
  rewrite IH. apply perm_swap.
Qed.

(** [Object.keys] rearranges the keys and loses none. *)
Lemma order_perm (ks : list string) : Permutation (JsObject.order ks) ks.
Proof.
  unfold JsObject.order. induction ks as [|a ks IH]; [reflexivity|].
  unfold JsObject.index_keys, JsObject.named_keys in *.
  cbn [fold_right filter]. unfold JsObject.is_index at 1.
  destruct (JsObject.array_index a) as [n|]; cbn [negb].
  - rewrite insert_index_perm. cbn [map snd app]. now constructor.
  - rewrite <- Permutation_middle. now constructor.
Qed.

Section Slots_of_output.
Variable c : config.
Variable hosts : list string.
Variable stack : nat.

(** Only hosts of the list are pending or running, and the slots of
    [output] stay those of the start. *)
Lemma hosts_inv (s : state) :
  reachable c hosts stack s ->
  (forall h, In h (map snd (running s)) -> In h hosts)
  /\ (forall h, In h (tasks s) -> In h hosts)
  /\ map fst (output s) = map fst (init_output hosts).
Proof.
  induction 1 as [|s ev s' out Hr (IR & IT & IO) Hstep].
  - cbn. tauto.
  - pose proof (reachable_inv c hosts stack s Hr) as Hinv.
    assert (Hw0 : dryrun c = true -> workers s = 0).
    { intros Hd. destruct Hinv as (Hw & _ & _ & Hm). rewrite Hd in Hm.
      destruct Hm as (_ & Hrun & _). now rewrite Hw, Hrun. }
    assert (Q : forall x s1 out1,
               q_process c stack (tasks x) x = (Continue s1, out1) ->
               (dryrun c = true -> workers x = 0) ->
               (forall h, In h (map snd (running x)) -> In h hosts) ->
               (forall h, In h (tasks x) -> In h hosts) ->
               map fst (output x) = map fst (init_output hosts) ->
               (forall h, In h (map snd (running s1)) -> In h hosts)
               /\ (forall h, In h (tasks s1) -> In h hosts)
               /\ map fst (output s1) = map fst (init_output hosts)).
    { intros x s1 out1 Hq Hx XR XT XO.
      apply q_process_continue in Hq; [|exact Hx].
      destruct Hq as [(-> & _) | (_ & h & r & Eh & _ & -> & _)]; [tauto|].
      cbn [running tasks output]. rewrite Eh in XT. repeat split.
      - intros h0. rewrite map_app, in_app_iff. cbn.
        intros [K|[K|[]]]; [now apply XR | subst; apply XT; now left].
      - intros h0 K. apply XT. now right.
      - exact XO. }
    destruct ev as [|pid k d|pid code|pid|arg]; cbn [step] in Hstep.
    + destruct (ticks s) as [|n]; [discriminate|]. injection Hstep as Hq.
      match type of Hq with q_process c _ _ ?x = _ =>
        apply (Q x _ _ Hq); auto end.
    + destruct (child pid (running s)) as [host|] eqn:Hch; [|discriminate].
      pose proof (on_data_frame c s host k d) as F.
      destruct (on_data c s host k d) as [s1 o1] eqn:E. cbn [fst] in F.
      inversion Hstep; subst s1. destruct F as (-> & _ & _ & -> & _).
      split; [exact IR|]. split; [exact IT|].
      unfold on_data in E.
      destruct (silent c); [inversion E; subst; exact IO|].
      destruct (group c); [inversion E; subst; exact IO|].
      destruct (join c); inversion E; subst; cbn [output]; [|exact IO].
      rewrite accumulate_keys; [exact IO|].
      destruct (String.eqb host "__proto__") eqn:Ep;
        [left; now apply String.eqb_eq|].
      right. rewrite IO, init_output_keys. apply distinct_in, filter_In.
      split; [apply IR; eapply child_in; eauto | now rewrite Ep].
    + destruct (child pid (running s)) as [host|] eqn:Hch; [|discriminate].
      assert (Hs : step c hosts stack s (Close pid code)
                   = Some (Continue s', out))
        by (cbn [step]; now rewrite Hch).
      destruct (close_continue c hosts stack s s' pid host code out Hinv Hch
                  Hs) as (Hdry & _ & out' & Hq & _).
      match type of Hq with q_process c _ _ ?x = _ =>
        apply (Q x _ _ Hq); cbn [running tasks output workers]; auto end.
      * intros; congruence.
      * intros h K. apply IR. eapply remove_child_in; eauto.
    + destruct (child pid (running s)); discriminate.
    + inversion Hstep; subst. tauto.
Qed.
End Slots_of_output.

(** X12.  Throughout a run the accumulator has exactly one own property
    for each distinct host of the list, a host named [__proto__] apart,
    which gets none: a host listed twice runs two jobs that share one slot.
    [Object.keys(output)] lists the hosts that are array indices first, by
    value, and then the other hosts in the order in which they first appear
    in the list, which is the order of all of them when no host is an array
    index. *)
Theorem one_slot_per_distinct_host (c : config) (hosts : list string)
    (stack : nat) (s : state) :
  reachable c hosts stack s ->
  JsObject.keys (output s)
  = JsObject.order
      (distinct (filter (fun h => negb (String.eqb h "__proto__")) hosts))
  /\ NoDup (JsObject.keys (output s))
  /\ (forall h,
        In h (JsObject.keys (output s))
        <-> In h hosts /\ h <> "__proto__")
  /\ (Forall (fun h => JsObject.is_index h = false) hosts ->
      JsObject.keys (output s)
      = distinct (filter (fun h => negb (String.eqb h "__proto__")) hosts)).
Proof.
  intros Hr. unfold JsObject.keys.
  destruct (hosts_inv c hosts stack s Hr) as (_ & _ & ->).
  rewrite init_output_keys.
  set (slots := distinct
                  (filter (fun h => negb (String.eqb h "__proto__")) hosts)).
  pose proof (order_perm slots) as P.
  split; [reflexivity|]. split; [|split].
  - eapply Permutation_NoDup; [symmetry; exact P | apply distinct_nodup].
  - intros h. split.
    + intros H. apply (Permutation_in _ P) in H.
      apply distinct_in, filter_In in H as [H1 H2]. split; [exact H1|].
      intros ->. discriminate.
    + intros [H1 H2]. apply (Permutation_in _ (Permutation_sym P)).
      apply distinct_in, filter_In. split; [exact H1|].
      apply String.eqb_neq in H2. now rewrite H2.
  - intros F. apply order_named. apply Forall_forall. intros h H.
    apply distinct_in, filter_In in H as [H1 _].
    rewrite Forall_forall in F. now apply F.
Qed.

Lemma one_slot_per_distinct_host_witness :
  JsObject.keys (output (init ["web"; "10"; "9"; "web"])) = ["9"; "10"; "web"]
  /\ NoDup (JsObject.keys (output (init ["web"; "10"; "9"; "web"]))).
Proof.
  destruct (one_slot_per_distinct_host uname ["web"; "10"; "9"; "web"] plenty
              (init ["web"; "10"; "9"; "web"]) (reach_init _ _ _))
    as (H1 & H2 & _).
  split; [exact H1 | exact H2].
Defined.

(** X13.  In join mode a chunk of either stream writes nothing and is
    appended to the text of its host, unless the host is named
    [__proto__], whose chunk is dropped; the texts of the other hosts and
    the slots stay as they are. *)
Theorem join_appends_chunk (c : config) (hosts : list string)
    (stack : nat) (s : state) (pid : nat) (host : string) (k : stream)
    (d : string) :
  reachable c hosts stack s ->
  join c = true -> group c = false -> silent c = false ->
  child pid (running s) = Some host ->
  exists s',
    step c hosts stack s (Data pid k d) = Some (Continue s', [])
    /\ (host <> "__proto__" ->
        text_of (output s') host = (text_of (output s) host ++ d)%string)
    /\ (host = "__proto__" -> output s' = output s)
    /\ (forall h, h <> host ->
                  text_of (output s') h = text_of (output s) h)
    /\ map fst (output s') = map fst (output s)
    /\ exitcode s' = exitcode s /\ i s' = i s /\ lasthost s' = lasthost s.
Proof.
  intros Hr Hj Hg Hs Hch.
  destruct (hosts_inv c hosts stack s Hr) as (IR & _ & IO).
  cbn [step]. rewrite Hch. unfold on_data. rewrite Hs, Hg, Hj.
  eexists. split; [reflexivity|]. cbn [output exitcode i lasthost].
  destruct (String.eqb host "__proto__") eqn:Ep.
  - apply String.eqb_eq in Ep.
    assert (E : accumulate (output s) host d = output s).
    { unfold accumulate, assign. rewrite Ep. cbn [String.eqb].
      now destruct (JsObject.own (output s) "__proto__"). }
    rewrite E. repeat split; auto. intros Hp. congruence.
  - assert (Hin : In host (map fst (output s))).
    { rewrite IO, init_output_keys. apply distinct_in, filter_In.
      split; [apply IR; eapply child_in; eauto | now rewrite Ep]. }
    destruct (own_in _ _ Hin) as (t & Ht & _).
    unfold accumulate, assign. rewrite Ht, Ep. unfold text_of.
    rewrite own_put_same, Ht. split; [reflexivity|]. split.
    { intros ->. discriminate. }
    split.
    + intros h Hne. now rewrite own_put_other.
    + rewrite put_keys. apply (proj2 (existsb_eqb_in _ _)) in Hin.
      rewrite Hin. auto.
Qed.

Lemma join_appends_chunk_witness :
  exists s',
    step uname_join ["a"; "b"] plenty
      (State [] 2 0 [(0%nat, "a"); (1%nat, "b")] 2 0 0 None
         [("a", "x"); ("b", "")])
      (Data 0 Stderr "y")
    = Some (Continue s', [])
    /\ ("a" <> "__proto__" -> text_of (output s') "a" = ("x" ++ "y")%string)
    /\ ("a" = "__proto__" -> output s' = [("a", "x"); ("b", "")])
    /\ (forall h, h <> "a" ->
                  text_of (output s') h
                  = text_of [("a", "x"); ("b", "")] h)
    /\ map fst (output s') = ["a"; "b"]
    /\ exitcode s' = 0 /\ i s' = 0 /\ lasthost s' = None.
Proof.
  apply (join_appends_chunk uname_join ["a"; "b"] plenty
           (State [] 2 0 [(0%nat, "a"); (1%nat, "b")] 2 0 0 None
              [("a", "x"); ("b", "")]) 0 "a" Stderr "y");
    try reflexivity.
  apply (reach_step _ _ _
           (State [] 2 0 [(0%nat, "a"); (1%nat, "b")] 2 0 0 None
              [("a", ""); ("b", "")])
           (Data 0 Stdout "x") _ []); [|reflexivity].
  apply (reach_step _ _ _
           (State ["b"] 1 1 [(0%nat, "a")] 1 0 0 None [("a", ""); ("b", "")])
           Tick _ [spawn (VStr "ssh") [VStr "b"; VStr "uname"]]);
    [|reflexivity].
  apply (reach_step _ _ _ (init ["a"; "b"]) Tick _
           [spawn (VStr "ssh") [VStr "a"; VStr "uname"]]);
    [apply reach_init | reflexivity].
Defined.

(** The chunks of a host named [__proto__] are lost: the host has no slot,
    and the summary does not list it. *)
Example proto_chunk_is_dropped :
  run uname_join ["__proto__"] plenty (init ["__proto__"])
    [Tick; Data 0 Stdout "x"]
  = Some (Continue (State [] 1 0 [(0%nat, "__proto__")] 1 0 0 None []),
          [spawn (VStr "ssh") [VStr "__proto__"; VStr "uname"]]).
Proof. reflexivity. Qed.

(** ** The grouping of the summary *)

Lemma group_fold_none (o : JsObject.t string) (l : list string) :
  fold_left (group_step o) l None = None.
Proof. induction l as [|h r IH]; [reflexivity | exact IH]. Qed.

Lemma own_some_key {V} (o : JsObject.t V) (k : string) (v : V) :
  JsObject.own o k = Some v -> In k (map fst o).
Proof.
  induction o as [|[k' v'] r IH]; cbn [JsObject.own map fst In];
    [discriminate|].
  destruct (String.eqb k' k) eqn:E.
  - apply String.eqb_eq in E. now left.
  - intros H. right. now apply IH.
Qed.

Lemma put_key_in {V} (o : JsObject.t V) (k k' : string) (v : V) :
  In k' (map fst (JsObject.put o k v)) -> k' = k \/ In k' (map fst o).
Proof.
  rewrite put_keys. destruct (existsb (String.eqb k) (map fst o)); [now right|].
  rewrite in_app_iff. cbn. intros [H|[H|[]]]; [now right | now left].
Qed.

(** A text that names an inherited property stops the loop. *)
Lemma group_fold_throws (o : JsObject.t string) (l : list string) :
  Exists (fun host => JsObject.inherited (text_of o host) = true) l ->
  forall diff,
    (forall t, In t (map fst diff) -> JsObject.inherited t = false) ->
    fold_left (group_step o) l (Some diff) = None.
Proof.
  induction l as [|h r IH]; intros Hex diff Hd; [inversion Hex|].
  cbn [fold_left]. unfold group_step at 2.
  destruct (JsObject.own diff (text_of o h)) as [hs|] eqn:Eo.
  - pose proof (Hd _ (own_some_key _ _ _ Eo)) as Hn.
    apply IH.
    + inversion Hex as [? ? K|? ? K]; subst; [congruence | exact K].
    + intros t Ht. apply put_key_in in Ht as [->|Ht]; auto.
  - destruct (JsObject.inherited (text_of o h)) eqn:Ei;
      [apply group_fold_none|].
    apply IH.
    + inversion Hex as [? ? K|? ? K]; subst; [congruence | exact K].
    + intros t Ht. apply put_key_in in Ht as [->|Ht]; auto.
Qed.

Lemma inherited_somewhere {A} (f : A -> string) (l : list A) :
  Forall (fun x => JsObject.inherited (f x) = false) l
  \/ Exists (fun x => JsObject.inherited (f x) = true) l.
Proof.
  induction l as [|a r [F|X]]; [left; constructor | |].
  - destruct (JsObject.inherited (f a)) eqn:E.
    + right. now left.
    + left. now constructor.
  - right. now right.
Qed.

Lemma grouping_succeeds (o : JsObject.t string) :
  group_by_output o = None
  <-> Exists (fun p => JsObject.inherited (snd p) = true) (accumulated o).
Proof.
  unfold accumulated. rewrite Exists_map. cbn [snd]. split.
  - intros Hn.
    destruct (inherited_somewhere (text_of o) (JsObject.keys o)) as [F|E];
      [|exact E].
    rewrite group_by_output_partition in Hn; [discriminate|].
    unfold accumulated. now rewrite Forall_map.
  - intros Hex. unfold group_by_output.
    apply group_fold_throws; [exact Hex | intros t []].
Qed.

(** X14.  In join mode the drain handler throws, instead of printing the
    summary and leaving with the aggregate exit status, exactly when the
    accumulated text of some host is the name of a property that objects
    inherit; it then prints nothing. *)
Theorem summary_throws_on_inherited_text (c : config) (s : state) :
  join c = true -> group c = false ->
  (drain c s = (Crashed, [])
   <-> Exists (fun p => JsObject.inherited (snd p) = true)
         (accumulated (output s)))
  /\ (fst (drain c s) = Exited (exitcode s) s
      <-> Forall (fun p => JsObject.inherited (snd p) = false)
            (accumulated (output s))).
Proof.
  intros Hj Hg. unfold drain. rewrite Hj, Hg. cbn [andb negb].
  rewrite <- grouping_succeeds.
  destruct (group_by_output (output s)) as [diff|] eqn:E; cbn [fst].
  - split; [split; discriminate|]. split; [intros _ | reflexivity].
    destruct (inherited_somewhere snd (accumulated (output s))) as [F|X];
      [exact F|].
    apply grouping_succeeds in X. congruence.
  - split; [split; reflexivity|]. split; [discriminate|].
    intros F. rewrite group_by_output_partition in E by exact F.
    discriminate.
Qed.

Lemma summary_throws_on_inherited_text_witness :
  drain uname_join
    (State [] 0 0 [] 2 2 0 None [("a", "up"); ("b", "valueOf")])
  = (Crashed, []).
Proof.
  apply (summary_throws_on_inherited_text uname_join
           (State [] 0 0 [] 2 2 0 None [("a", "up"); ("b", "valueOf")])
           eq_refl eq_refl).
  right. left. reflexivity.
Defined.

Lemma group_fold_some (o : JsObject.t string) (l : list string) :
  forall acc diff,
    fold_left (group_step o) l (Some acc) = Some diff ->
    length (concat (map snd diff))
    = (length (concat (map snd acc)) + length l)%nat.
Proof.
  assert (P : forall (d : JsObject.t (list string)) t hs h,
             JsObject.own d t = Some hs ->
             length (concat (map snd (JsObject.put d t (hs ++ [h]))))
             = S (length (concat (map snd d)))).
  { induction d as [|[k v] r IH]; intros t hs h; cbn [JsObject.own];
      [discriminate|].
    cbn [JsObject.put]. destruct (String.eqb k t); cbn [map snd concat].
    - intros E. inversion E; subst. rewrite !length_app. cbn. lia.
    - intros E. rewrite !length_app, (IH _ _ _ E). lia. }
  assert (N : forall (d : JsObject.t (list string)) t h,
             JsObject.own d t = None ->
             length (concat (map snd (JsObject.put d t [h])))
             = S (length (concat (map snd d)))).
  { induction d as [|[k v] r IH]; intros t h; cbn [JsObject.own];
      [reflexivity|].
    cbn [JsObject.put]. destruct (String.eqb k t); [discriminate|].
    cbn [map snd concat]. intros E. rewrite !length_app, (IH _ _ E). lia. }
  induction l as [|h r IH]; intros acc diff H.
  - cbn in H. inversion H; subst. cbn. lia.
  - cbn [fold_left] in H. unfold group_step at 2 in H.
    destruct (JsObject.own acc (text_of o h)) as [hs|] eqn:Eo.
    + rewrite (IH _ _ H), (P _ _ _ _ Eo). cbn [length]. lia.
    + destruct (JsObject.inherited (text_of o h));
        [rewrite group_fold_none in H; discriminate|].
      rewrite (IH _ _ H), (N _ _ _ Eo). cbn [length]. lia.
Qed.

(** The groups that the loop of [q.drain] builds. *)
Lemma group_by_output_sound (o : JsObject.t string)
    (diff : JsObject.t (list string)) :
  group_by_output o = Some diff ->
  NoDup (map fst diff)
  /\ (forall t hs,
        In (t, hs) diff ->
        hs <> []
        /\ forall h,
             In h hs <-> In h (JsObject.keys o) /\ text_of o h = t)
  /\ length (concat (map snd diff)) = length (JsObject.keys o).
Proof.
  intros H.
  assert (F : Forall (fun p => JsObject.inherited (snd p) = false)
                (accumulated o)).
  { destruct (inherited_somewhere snd (accumulated o)) as [F|X]; [exact F|].
    apply grouping_succeeds in X. congruence. }
  pose proof (group_by_output_partition o F) as E. rewrite H in E.
  injection E as ->. split; [|split].
  - rewrite partition_keys. apply distinct_nodup.
  - intros t hs Hin. unfold partition_by_text in Hin.
    apply in_map_iff in Hin as (t' & E & Ht). inversion E; subst t' hs.
    apply (proj1 (distinct_in _ _)) in Ht.
    assert (M : forall h,
               In h (map fst
                       (filter (fun p => String.eqb (snd p) t)
                          (accumulated o)))
               <-> In h (JsObject.keys o) /\ text_of o h = t).
    { intros h. rewrite in_map_iff. unfold accumulated. split.
      - intros ([h' t'] & Eh & Hf). cbn in Eh. subst h'.
        apply filter_In in Hf as [Hm Hs]. cbn in Hs.
        apply String.eqb_eq in Hs. subst t'.
        apply in_map_iff in Hm as (h0 & E0 & Hk). inversion E0; subst.
        now split.
      - intros [Hk Ht']. exists (h, t). split; [reflexivity|].
        apply filter_In. split; [|cbn; apply String.eqb_refl].
        apply in_map_iff. exists h. split; [now rewrite Ht' | exact Hk]. }
    split; [|exact M].
    apply in_map_iff in Ht as ([h t'] & Et & Hp). cbn [snd] in Et.
    unfold accumulated in Hp. apply in_map_iff in Hp as (h0 & E0 & Hk).
    assert (Eh : h0 = h) by congruence.
    assert (Et' : text_of o h0 = t) by congruence.
    subst h0. intros Hnil.
    assert (K : In h (map fst
                        (filter (fun p => String.eqb (snd p) t)
                           (accumulated o))))
      by (apply M; now split).
    rewrite Hnil in K. contradiction.
  - unfold group_by_output in H.
    rewrite (group_fold_some _ _ _ _ H). reflexivity.
Qed.

(** X15.  When the grouping of the summary succeeds, its groups have
    distinct texts, none is empty, a host is in the group of a text exactly
    when it is a host of [output] with that text, and the sizes of the
    groups add up to the number of hosts of [output]: every host is in one
    group and one only. *)
Theorem groups_partition_the_hosts (o : JsObject.t string)
    (diff : JsObject.t (list string)) :
  group_by_output o = Some diff ->
  NoDup (map fst diff)
  /\ (forall t hs,
        In (t, hs) diff ->
        hs <> []
        /\ forall h,
             In h hs <-> In h (JsObject.keys o) /\ text_of o h = t)
  /\ length (concat (map snd diff)) = length (JsObject.keys o).
Proof. apply group_by_output_sound. Qed.

Lemma groups_partition_the_hosts_witness :
  NoDup ["x"; "y"]
  /\ (forall t hs,
        In (t, hs) [("x", ["A"; "B"]); ("y", ["C"])] ->
        hs <> []
        /\ forall h,
             In h hs
             <-> In h (JsObject.keys (output three_hosts))
                 /\ text_of (output three_hosts) h = t)
  /\ length (concat (map snd [("x", ["A"; "B"]); ("y", ["C"])]))
     = length (JsObject.keys (output three_hosts)).
Proof.
  apply (groups_partition_the_hosts (output three_hosts)
           [("x", ["A"; "B"]); ("y", ["C"])]).
  reflexivity.
Defined.

(** ** The queue empties *)

Section Liveness.
Variable c : config.
Variable hosts : list string.
Variable stack : nat.
Hypothesis Hcap : below 0 (maxjobs c) = true.
Hypothesis Hne : hosts <> [].

Lemma run_last (s : state) (ev : event) (r : outcome * list effect) :
  step c hosts stack s ev = Some r -> ended (fst r) = true ->
  run c hosts stack s [ev] = Some r.
Proof.
  intros H He. cbn [run]. rewrite H. destruct r as [[s'|code s'|] out];
    [discriminate | reflexivity | reflexivity].
Qed.

Lemma run_cons (s s' : state) (ev : event) (out : list effect)
    (evs : list event) (r : outcome * list effect) :
  step c hosts stack s ev = Some (Continue s', out) ->
  run c hosts stack s' evs = Some r ->
  run c hosts stack s (ev :: evs) = Some (after out r).
Proof. intros H Hr. cbn [run]. now rewrite H, Hr. Qed.

Lemma drain_ended (s : state) : ended (fst (drain c s)) = true.
Proof. destruct (drain_outcome c s) as [E|E]; now rewrite E. Qed.

(** With a free slot the first scheduled [q.process] call of a dry run
    goes through the hosts and never returns, so that the loop never sees
    another state than the first one. *)
Lemma dry_reachable (s : state) :
  dryrun c = true -> reachable c hosts stack s -> s = init hosts.
Proof.
  intros Hdry. induction 1 as [|s ev s' out Hr IH Hstep]; [reflexivity|].
  subst s. unfold init in Hstep.
  destruct ev as [|pid k d|pid code|pid|arg];
    cbn [step ticks tasks workers running spawned i exitcode lasthost output
         child] in Hstep; try discriminate.
  - destruct (length hosts); [discriminate|]. exfalso.
    apply some_pair_fst in Hstep.
    match type of Hstep with fst (q_process c _ _ ?x) = _ =>
      pose proof (q_process_dry_ends c hosts Hdry Hcap Hne stack x eq_refl)
        as E end.
    rewrite Hstep in E. discriminate.
  - assert (E : s' = State hosts 0 (length hosts) [] 0 0 0 None
                       (init_output hosts)) by congruence.
    exact E.
Qed.

(** While the loop goes on, a [q.process] call is scheduled or a child is
    alive. *)
Lemma not_stuck (s : state) :
  reachable c hosts stack s -> ticks s = 0%nat -> running s <> [].
Proof.
  intros Hr Ht.
  pose proof (reachable_inv c hosts stack s Hr) as (Hw & _ & _ & Hm).
  destruct (dryrun c) eqn:Hdry.
  - rewrite (dry_reachable s Hdry Hr) in Ht. cbn [init ticks] in Ht.
    destruct hosts; [congruence | discriminate].
  - destruct Hm as [_ Hpos]. specialize (Hpos Hne). intros Hrun.
    rewrite Hrun in Hpos, Hw. change (len (@nil (nat * string))) with 0 in *.
    assert (Hts : tasks s <> []).
    { intros E. rewrite E in Hpos. change (len (@nil string)) with 0 in Hpos.
      lia. }
    destruct (slots_inv c hosts stack s Hr Hts) as [H|H]; rewrite Ht in H.
    + rewrite Hw in H. cbn in H. rewrite Hcap in H. discriminate.
    + destruct (tasks s); [congruence|]. rewrite len_cons in H.
      pose proof (len_nonneg l). cbn in H. lia.
Qed.

Lemma finish_from (n : nat) :
  (dryrun c = true -> (length hosts <= S stack)%nat) ->
  forall s,
    reachable c hosts stack s ->
    (Z.to_nat (len hosts - i s) + ticks s <= n)%nat ->
    exists evs s' out,
      Forall (fun ev => uneventful ev = true) evs
      /\ run c hosts stack s evs = Some (fst (drain c s'), out)
      /\ exitcode s' = exitcode s.
Proof.
  intros Hroom.
  induction n as [|n IH]; intros s Hr Hm;
    pose proof (reachable_inv c hosts stack s Hr) as Hinv;
    pose proof Hinv as (Hw & Hmax & Hi & Hmode);
    destruct (ticks s) as [|k] eqn:Et.
  - exfalso. pose proof (not_stuck s Hr Et) as Hrun.
    destruct (running s) as [|[pid h] rest] eqn:Er; [congruence|].
    destruct (dryrun c); [destruct Hmode as (_ & ? & _); discriminate|].
    destruct Hmode as [Hsum _]. rewrite len_cons in Hsum.
    pose proof (len_nonneg rest). pose proof (len_nonneg (tasks s)). lia.
  - lia.
  - (* no call is scheduled: the first live child closes *)
    pose proof (not_stuck s Hr Et) as Hrun.
    destruct (running s) as [|[pid h] rest] eqn:Er; [congruence|].
    assert (Hch : child pid (running s) = Some h)
      by (rewrite Er; cbn [child]; now rewrite Nat.eqb_refl).
    destruct (inv_alive c hosts s pid h Hinv Hch) as (Hdry & Hfree & Hone).
    rewrite Hdry in Hmode. destruct Hmode as [Hsum _].
    assert (Hstep : step c hosts stack s (Close pid (Some 0%N))
                    = Some (on_close c hosts stack s pid h (Some 0%N)))
      by (cbn [step]; now rewrite Hch).
    unfold on_close, next in Hstep.
    cbn [tasks workers ticks running spawned i exitcode lasthost output]
      in Hstep.
    destruct (len (tasks s) + (workers s - 1) =? 0) eqn:Ez.
    + eexists [Close pid (Some 0%N)], _, _. split; [|split].
      * repeat constructor.
      * rewrite (run_last _ _ _ Hstep) by (cbn [after fst]; apply drain_ended).
        unfold after. cbn [fst snd]. reflexivity.
      * cbn [exitcode to_number]. change (Z.of_N 0) with 0. lia.
    + rewrite (q_process_spawns c _ _ _ Hdry) in Hstep.
      cbn [tasks workers ticks running spawned i exitcode lasthost output]
        in Hstep.
      assert (Hlt : (Z.to_nat (len hosts - (i s + 1)) + 0 <= n)%nat).
      { rewrite len_cons in Hsum. pose proof (len_nonneg rest).
        pose proof (len_nonneg (tasks s)). lia. }
      destruct (tasks s) as [|h' r'];
        [|destruct (below (workers s - 1) (maxjobs c))];
        unfold after in Hstep; cbn [fst snd] in Hstep;
        match type of Hstep with _ = Some (Continue ?x, _) =>
          destruct (IH x) as (evs & s' & out & Hev & Hrun' & Hex);
            [eapply reach_step; [exact Hr | exact Hstep]
            | cbn [i ticks]; rewrite ?Et; exact Hlt |]
        end;
        (exists (Close pid (Some 0%N) :: evs), s'; eexists;
         split; [constructor; [reflexivity | exact Hev]|];
         split; [rewrite (run_cons _ _ _ _ _ _ Hstep Hrun');
                 unfold after; cbn [fst snd]; reflexivity|];
         rewrite Hex; cbn [exitcode to_number];
         change (Z.of_N 0) with 0; lia).
  - (* a scheduled call runs *)
    assert (Hstep : step c hosts stack s Tick
                    = Some (q_process c stack (tasks s)
                              (State (tasks s) (workers s) k (running s)
                                 (spawned s) (i s) (exitcode s) (lasthost s)
                                 (output s))))
      by (cbn [step]; now rewrite Et).
    destruct (dryrun c) eqn:Hdry.
    + pose proof (dry_reachable s Hdry Hr) as Es.
      assert (Ets : tasks s = hosts) by now rewrite Es.
      rewrite Ets in Hstep.
      rewrite (q_process_dry c hosts Hdry Hcap Hne) in Hstep
        by (rewrite ?Es; (reflexivity || now apply Hroom)).
      eexists [Tick], _, _. split; [|split].
      * repeat constructor.
      * rewrite (run_last _ _ _ Hstep) by (cbn [after fst]; apply drain_ended).
        unfold after. cbn [fst snd]. reflexivity.
      * reflexivity.
    + rewrite (q_process_spawns c _ _ _ Hdry) in Hstep.
      cbn [tasks workers ticks running spawned i exitcode lasthost output]
        in Hstep.
      assert (Hlt : (Z.to_nat (len hosts - i s) + k <= n)%nat) by lia.
      destruct (tasks s) as [|h' r'];
        [|destruct (below (workers s) (maxjobs c))];
        match type of Hstep with _ = Some (Continue ?x, _) =>
          destruct (IH x) as (evs & s' & out & Hev & Hrun' & Hex);
            [eapply reach_step; [exact Hr | exact Hstep]
            | cbn [i ticks]; exact Hlt |]
        end;
        (exists (Tick :: evs), s'; eexists;
         split; [constructor; [reflexivity | exact Hev]|];
         split; [rewrite (run_cons _ _ _ _ _ _ Hstep Hrun');
                 unfold after; cbn [fst snd]; reflexivity|];
         rewrite Hex; reflexivity).
Qed.
End Liveness.

(** X16.  With at least one host and a cap that admits a job the script
    cannot hang: while the loop goes on, a [q.process] call is scheduled or
    a child is alive; and from every state of a run the scheduled calls and
    the closes of the children, each with status 0, lead to the drain
    handler with the exit code accumulated so far, provided that in a dry
    run the stack holds one nested call for each host after the first. *)
Theorem queue_drains (c : config) (hosts : list string) (stack : nat)
    (s : state) :
  below 0 (maxjobs c) = true -> hosts <> [] ->
  reachable c hosts stack s ->
  (ticks s = 0%nat -> running s <> [])
  /\ ((dryrun c = true -> (length hosts <= S stack)%nat) ->
      exists evs s' out,
        Forall (fun ev => uneventful ev = true) evs
        /\ run c hosts stack s evs = Some (fst (drain c s'), out)
        /\ exitcode s' = exitcode s).
Proof.
  intros Hcap Hne Hr. split.
  - now apply (not_stuck c hosts stack).
  - intros Hroom.
    now apply (finish_from c hosts stack Hcap Hne _ Hroom s Hr
                 (Nat.le_refl _)).
Qed.

Lemma queue_drains_witness :
  exists evs s' out,
    Forall (fun ev => uneventful ev = true) evs
    /\ run uname ["a"; "b"] plenty (init ["a"; "b"]) evs
       = Some (fst (drain uname s'), out)
    /\ exitcode s' = exitcode (init ["a"; "b"]).
Proof.
  apply (queue_drains uname ["a"; "b"] plenty (init ["a"; "b"])).
  - reflexivity.
  - discriminate.
  - constructor.
  - discriminate.
Defined.

(** ** The summary and the list of hosts *)

Lemma partition_has_text (l : list (string * string)) (h t : string) :
  In (h, t) l ->
  In (t, map fst (filter (fun p => String.eqb (snd p) t) l))
    (partition_by_text l).
Proof.
  intros H. unfold partition_by_text.
  apply (in_map (fun t => (t, map fst
                                (filter (fun p => String.eqb (snd p) t) l)))).
  apply distinct_in. apply in_map_iff. now exists (h, t).
Qed.

(** X17.  When the summary of join mode is printed, its groups put together
    are a rearrangement of the distinct hosts of the list, [__proto__] left
    out, and every host stands in the group of its own accumulated text:
    no host is lost or listed twice, whatever the events were. *)
Theorem summary_lists_every_host (c : config) (hosts : list string)
    (stack : nat) (s : state) (diff : JsObject.t (list string)) :
  reachable c hosts stack s ->
  group_by_output (output s) = Some diff ->
  Permutation (concat (map snd diff))
    (distinct (filter (fun h => negb (String.eqb h "__proto__")) hosts))
  /\ forall t hs h,
       In (t, hs) diff -> In h hs -> text_of (output s) h = t.
Proof.
  intros Hr Hg.
  destruct (group_by_output_sound _ _ Hg) as (_ & Hin & Hlen).
  assert (Hk : Permutation (JsObject.keys (output s))
                 (distinct
                    (filter (fun h => negb (String.eqb h "__proto__"))
                       hosts))).
  { unfold JsObject.keys.
    destruct (hosts_inv c hosts stack s Hr) as (_ & _ & ->).
    rewrite init_output_keys. apply order_perm. }
  split.
  - rewrite <- Hk. symmetry. apply NoDup_Permutation_bis.
    + eapply Permutation_NoDup; [symmetry; exact Hk | apply distinct_nodup].
    + now rewrite Hlen.
    + intros h Hh. apply in_concat.
      assert (F : Forall (fun p => JsObject.inherited (snd p) = false)
                    (accumulated (output s))).
      { destruct (inherited_somewhere snd (accumulated (output s)))
          as [F|X]; [exact F|].
        apply grouping_succeeds in X. congruence. }
      rewrite (group_by_output_partition _ F) in Hg.
      assert (Ed : diff = partition_by_text (accumulated (output s)))
        by congruence.
      assert (Hp : In (h, text_of (output s) h) (accumulated (output s))).
      { unfold accumulated.
        now apply (in_map (fun host => (host, text_of (output s) host))). }
      apply partition_has_text in Hp. rewrite <- Ed in Hp.
      eexists. split.
      * apply in_map_iff. eexists. split; [|exact Hp]. reflexivity.
      * cbn [snd]. apply (Hin _ _ Hp). now split.
  - intros t hs h Ht Hh. now apply (Hin _ _ Ht).
Qed.

Lemma summary_lists_every_host_witness :
  Permutation
    (concat (map snd [("", ["a"; "b"])]))
    (distinct
       (filter (fun h => negb (String.eqb h "__proto__"))
          ["a"; "__proto__"; "b"; "a"]))
  /\ forall t hs h,
       In (t, hs) [("", ["a"; "b"])] -> In h hs ->
       text_of (output (init ["a"; "__proto__"; "b"; "a"])) h = t.
Proof.
  apply (summary_lists_every_host uname_join ["a"; "__proto__"; "b"; "a"]
           plenty
           (init ["a"; "__proto__"; "b"; "a"])).
  - constructor.
  - reflexivity.
Defined.
